(** * ts-x: the analytical AR(p) estimator of [exploration/ar_analytical_ml.ipynb]

    The notebook defines one class, [AnalyticalAR], with two methods:

    - [fit] builds the conditional Gaussian log-likelihood of the series as a
      sympy expression, differentiates it in every coefficient, solves the
      stationarity system symbolically and substitutes the data;
    - [predict] rolls the fitted recurrence forward, appending every
      prediction to a working copy of the history.

    Modelling decisions.

    - Numbers are exact rationals ([rat]).  A value that is not a finite
      number (sympy's [zoo]/[nan], a float [nan]/[inf], an expression with an
      unbound symbol) is [None] in [num := option rat]; it is absorbing for
      [+] and [*], the only operations [predict] performs.
    - sympy expressions are a small syntax tree ([expr]); [sp_diff],
      [as_numer_denom], [sp_solve] and [subs] stand for the sympy calls of
      the same name, following sympy's conventions (automatic removal of
      zero terms and factors, solving a rational system through its
      numerators, no exception on substitution).
    - [subs] is the exact value of the substituted expression.  Where the
      denominator of a solution is not zero at the data this is the number
      the interpreter stores, up to the rounding of its floats.  Where the
      denominator is zero (a singular [X^T X]) [subs] gives [None], and the
      interpreter's entry is outside the model: sympy substitutes the data
      one symbol at a time, simplifying between the steps and rounding, and
      leaves [nan], a finite number or a mixture, depending on the data
      (two [nan] on the series of five ones with order 2, where [None]
      agrees with it).  The theorems that give the values [fit] stores are
      therefore stated for non-singular designs; for singular ones they
      state only that [fit] returns and how many entries it stores.
    - Python exceptions are values of [exn]; a method is a function into
      [result].  [predict] runs in a state monad over a heap of arrays so
      that aliasing between the caller's array and the working array is
      visible. *)

Set Warnings "-notation-overridden,-ambiguous-paths,-rewrite-rw".
Set Warnings "-notation-for-abbreviation".
From mathcomp Require Import boot order algebra.
From Stdlib Require Import Lia.

Set Implicit Arguments.
Unset Strict Implicit.
Unset Printing Implicit Defensive.

Import GRing.Theory Num.Theory.
Local Open Scope ring_scope.

(** ** Python outcomes *)

(** The built-in exceptions the two methods can raise, and the three error
    names of the specification that concern them.  The notebook defines no
    exception class and contains no [raise] statement. *)
Inductive exn : Type :=
  | ZeroDivisionError
  | TypeError
  | AttributeError
  | KeyError
  | IndexError
  | InsufficientDataError
  | SingularDesignError
  | InsufficientHistoryError.

(** Exceptions that come from the Python runtime or from numpy/sympy, as
    opposed to the error taxonomy of the specification. *)
Definition builtin_exn (e : exn) : bool :=
  match e with
  | InsufficientDataError | SingularDesignError | InsufficientHistoryError =>
      false
  | _ => true
  end.

Inductive result (T : Type) : Type :=
  | Ok of T
  | Raise of exn.

Arguments Raise {T} e.

(** ** Numbers *)

Definition num : Type := option rat.

Definition nadd (a b : num) : num :=
  match a, b with
  | Some x, Some y => Some (x + y)
  | _, _ => None
  end.

Definition nmul (a b : num) : num :=
  match a, b with
  | Some x, Some y => Some (x * y)
  | _, _ => None
  end.

(** Sum of a list of rationals, left to right from 0. *)
Definition sumq (s : seq rat) : rat := foldr +%R 0 s.

(** ** sympy expressions *)

Inductive expr : Type :=
  | Num of rat             (* a numeric constant *)
  | Phi of nat             (* self.phi[j] *)
  | Ysym of nat            (* y_sym[i] *)
  | Add of expr & expr
  | Mul of expr & expr
  | Pow of expr & int      (* base ** (integer exponent) *)
  | Log of expr.

Definition is_zero (e : expr) : bool :=
  if e is Num c then c == 0 else false.

(** sympy evaluates [0 + a] to [a] and [0 * a] to [0] when it builds an
    expression. *)
Definition sAdd (a b : expr) : expr :=
  if is_zero a then b else if is_zero b then a else Add a b.

Definition sMul (a b : expr) : expr :=
  if is_zero a || is_zero b then Num 0 else Mul a b.

(** A flattened sympy sum, also Python's [sum(...)] over sympy terms. *)
Definition esum (s : seq expr) : expr := foldr sAdd (Num 0) s.

(** [sp.diff(e, self.phi[j])] *)
Fixpoint sp_diff (j : nat) (e : expr) : expr :=
  match e with
  | Num _ => Num 0
  | Phi k => Num (k == j)%:R
  | Ysym _ => Num 0
  | Add a b => sAdd (sp_diff j a) (sp_diff j b)
  | Mul a b => sAdd (sMul (sp_diff j a) b) (sMul a (sp_diff j b))
  | Pow a n => sMul (sMul (Num n%:~R) (Pow a (n - 1))) (sp_diff j a)
  | Log a => sMul (sp_diff j a) (Pow a (-1))
  end.

(** [e.as_numer_denom()]: a logarithm is an atom. *)
Fixpoint as_numer_denom (e : expr) : expr * expr :=
  match e with
  | Add a b =>
      let: (na, da) := as_numer_denom a in
      let: (nb, db) := as_numer_denom b in
      (Add (Mul na db) (Mul nb da), Mul da db)
  | Mul a b =>
      let: (na, da) := as_numer_denom a in
      let: (nb, db) := as_numer_denom b in
      (Mul na nb, Mul da db)
  | Pow a (Posz n) =>
      let: (na, da) := as_numer_denom a in (Pow na n, Pow da n)
  | Pow a (Negz n) =>
      let: (na, da) := as_numer_denom a in (Pow da n.+1, Pow na n.+1)
  | _ => (e, Num 1)
  end.

(** Replacing every coefficient symbol by a number. *)
Fixpoint subs_phi (v : nat -> rat) (e : expr) : expr :=
  match e with
  | Phi j => Num (v j)
  | Add a b => Add (subs_phi v a) (subs_phi v b)
  | Mul a b => Mul (subs_phi v a) (subs_phi v b)
  | Pow a n => Pow (subs_phi v a) n
  | Log a => Log (subs_phi v a)
  | _ => e
  end.

(** [e.subs(y_values)] read as a number, computed exactly on the fully
    substituted expression: a symbol without a value, a logarithm or a
    division by zero leaves no number.  The last case is the one of a
    singular design, in which the interpreter's entry depends on the order
    of substitution and on rounding and need not be the [nan] that [None]
    stands for. *)
Fixpoint subs (y_values : nat -> num) (e : expr) : num :=
  match e with
  | Num c => Some c
  | Phi _ => None
  | Ysym i => y_values i
  | Add a b => nadd (subs y_values a) (subs y_values b)
  | Mul a b => nmul (subs y_values a) (subs y_values b)
  | Pow a n =>
      if subs y_values a is Some x then
        if (n < 0) && (x == 0) then None else Some (x ^ n)
      else None
  | Log _ => None
  end.

(** Value of an expression under total assignments of both families of
    symbols; used for polynomial expressions only (a logarithm counts 0). *)
Fixpoint evalp (v eta : nat -> rat) (e : expr) : rat :=
  match e with
  | Num c => c
  | Phi j => v j
  | Ysym i => eta i
  | Add a b => evalp v eta a + evalp v eta b
  | Mul a b => evalp v eta a * evalp v eta b
  | Pow a n => evalp v eta a ^ n
  | Log _ => 0
  end.

(** ** Determinants and the linear solve *)

(** Column index [j] of a minor that skips column [j0]. *)
Definition skip (j0 j : nat) : nat := if (j < j0)%N then j else j.+1.

Section Det.

Variable T : Type.
Variables (zero one : T) (add mul : T -> T -> T) (opp : T -> T).

(** Laplace expansion along row 0 of the [n] x [n] matrix [A]. *)
Fixpoint det (n : nat) (A : nat -> nat -> T) : T :=
  if n is n'.+1 then
    foldr add zero
      [seq let t := mul (A 0 j) (det n' (fun i k => A i.+1 (skip j k))) in
           if odd j then opp t else t
      | j <- iota 0 n]
  else one.

(** The matrix [A] with column [j0] replaced by the vector [b]. *)
Definition repl_col (A : nat -> nat -> T) (j0 : nat) (b : nat -> T) :
  nat -> nat -> T :=
  fun i k => if k == j0 then b i else A i k.

End Det.

Definition det_expr : nat -> (nat -> nat -> expr) -> expr :=
  det (Num 0) (Num 1) Add Mul (fun e => Mul (Num (-1)) e).

Definition det_rat : nat -> (nat -> nat -> rat) -> rat :=
  det 0 1 +%R *%R -%R.

Definition unit_vec (k : nat) : nat -> rat := fun j => (j == k)%:R.
Definition zero_vec : nat -> rat := fun _ => 0.

(** [sp.solve(eqs, self.phi)] for [p] equations whose numerators are linear
    in the [p] unknowns.  The numerator [n_j] of equation [j] gives row [j]
    of the system: the right-hand side is [- n_j(0)] and the coefficient of
    [phi_k] is [n_j(e_k) - n_j(0)].  The solution is returned in closed
    form, as Cramer's quotients of determinants in the remaining symbols. *)
Definition linear_rhs (eqs : seq expr) (j : nat) : expr :=
  Mul (Num (-1)) (subs_phi zero_vec (as_numer_denom (nth (Num 0) eqs j)).1).

Definition linear_coeff (eqs : seq expr) (j k : nat) : expr :=
  Add (subs_phi (unit_vec k) (as_numer_denom (nth (Num 0) eqs j)).1)
      (linear_rhs eqs j).

Definition sp_solve (eqs : seq expr) (p : nat) : seq expr :=
  [seq Mul (det_expr p (repl_col (linear_coeff eqs) k (linear_rhs eqs)))
           (Pow (det_expr p (linear_coeff eqs)) (-1))
  | k <- iota 0 p].

(** ** The class *)

(** A sympy symbol held by the object. *)
Inductive symbol : Type :=
  | SymPhi of nat          (* 'phi1', 'phi2', ...: SymPhi j is phi(j+1) *)
  | SymSigma2.             (* 'sigma2' *)

(** An attribute that may hold a symbol or a number. *)
Inductive attr : Type :=
  | Symbolic of symbol
  | Numeric of rat.

(** Instance state.  [phi_values] is absent until [fit] has run. *)
Record AnalyticalAR : Type := mkAR {
  order : nat;
  phi : seq symbol;
  sigma2 : attr;
  phi_values : option (seq num)
}.

(** [AnalyticalAR(order)] *)
Definition init (order : nat) : AnalyticalAR :=
  {| order := order;
     phi := [seq SymPhi j | j <- iota 0 order];
     sigma2 := Symbolic SymSigma2;
     phi_values := None |}.

(** [y_sym[i] - sum(self.phi[j] * y_sym[i-j-1] for j in range(self.order))] *)
Definition residual (p i : nat) : expr :=
  Add (Ysym i)
      (Mul (Num (-1))
           (esum [seq Mul (Phi j) (Ysym (i - j - 1)) | j <- iota 0 p])).

Arguments residual : simpl never.

(** [sp.Sum(f, (i, a, b)).doit()] for [a <= b + 1]. *)
Definition Sum_doit (f : nat -> expr) (a b : nat) : expr :=
  esum [seq f i | i <- iota a (b.+1 - a)].

(** [1 / (N - 2 * self.order)], once the division has not raised. *)
Definition inv_dof (N p : nat) : rat := ((N%:Z - (2 * p)%:Z)%:~R)^-1.

(** [-(N - self.order)/2] *)
Definition half_rows (N p : nat) : rat := - ((N%:Z - p%:Z)%:~R / 2%:R).

(** The local [sigma2] of [fit]:
    [(1 / (N - 2 * self.order)) * sp.Sum(residual**2, (i, self.order + 1, N)).doit()] *)
Definition sigma2_expr (N p : nat) : expr :=
  Mul (Num (inv_dof N p))
      (Sum_doit (fun i => Pow (residual p i) 2) p.+1 N).

(** [-(N - self.order)/2 * sp.log(2 * np.pi * sigma2)].  The float
    [2 * np.pi] is the parameter [two_pi]: the expression, and everything
    [fit] derives from it, is stated for an arbitrary non-zero rational in
    its place, which covers the double the interpreter uses. *)
Definition log_likelihood (two_pi : rat) (N p : nat) : expr :=
  Mul (Num (half_rows N p))
      (Log (Mul (Num two_pi) (sigma2_expr N p))).

(** [{y_sym[i]: y[i-1] for i in range(1, N+1)}] *)
Definition y_values (y : seq rat) : nat -> num :=
  fun i => if (0 < i <= size y)%N then Some (nth 0 y i.-1) else None.

(** [AnalyticalAR.fit(self, y)].  The method returns nothing; the result is
    the state of the object afterwards.

    - [1 / (N - 2 * self.order)] is a Python division: it raises when
      [N = 2 * order].
    - When [N < 2 * order] the [order] stationarity equations have no
      isolated solution in the coefficients (the determinant of the system
      vanishes for every data, [short_series_singular]), [sp.solve] returns
      an empty list and the subscript [phi_solutions[self.phi[j]]], a list
      indexed by a symbol, raises [TypeError].
    - Otherwise the summation range [order + 1 .. N] is not empty and
      [sp.solve] returns the solution dictionary, into which the data are
      substituted without any check of the denominator. *)
Definition fit (two_pi : rat) (self : AnalyticalAR) (y : seq rat) :
  result AnalyticalAR :=
  let N := size y in
  let p := order self in
  if N == (2 * p)%N then Raise ZeroDivisionError
  else if (N < 2 * p)%N then Raise TypeError
  else
    let diff_log_likelihood :=
      [seq sp_diff j (log_likelihood two_pi N p) | j <- iota 0 p] in
    let phi_solutions := sp_solve diff_log_likelihood p in
    Ok {| order := p;
          phi := phi self;
          sigma2 := sigma2 self;
          phi_values :=
            Some [seq subs (y_values y) (nth (Num 0) phi_solutions j)
                 | j <- iota 0 p] |}.

(** ** The heap and [predict] *)

(** Arrays and lists live on a heap; a Python variable holds a location. *)
Definition loc : Type := nat.
Definition heap : Type := seq (seq num).

Definition deref (h : heap) (l : loc) : seq num := nth [::] h l.

(** Computations that read and write the heap and may raise. *)
Definition M (T : Type) : Type := heap -> result T * heap.

Definition ret {T} (x : T) : M T := fun h => (Ok x, h).

Definition bind {T U} (m : M T) (f : T -> M U) : M U :=
  fun h => match m h with
           | (Ok x, h') => f x h'
           | (Raise e, h') => (Raise e, h')
           end.

Notation "x <- m ;; k" := (bind m (fun x => k))
  (at level 100, m at next level, right associativity).

(** [[]]: a new empty list. *)
Definition new_list : M loc := fun h => (Ok (size h), rcons h [::]).

(** [l.append(x)]: the list at [l] is extended in place. *)
Definition list_append (l : loc) (x : num) : M unit :=
  fun h => (Ok tt, set_nth [::] h l (rcons (deref h l) x)).

(** [np.append(y, x)]: a new array; the one at [y] is not touched. *)
Definition np_append (y : loc) (x : num) : M loc :=
  fun h => (Ok (size h), rcons h (rcons (deref h y) x)).

(** [np.array(l)]: a new array with the elements of the list at [l]. *)
Definition np_array (l : loc) : M loc :=
  fun h => (Ok (size h), rcons h (deref h l)).

(** Python's [sum] over numbers: from 0, left to right. *)
Definition nsum (s : seq num) : num := foldl nadd (Some 0) s.

(** [j]-th element from the end, [y[-j-1]]. *)
Definition from_end (ys : seq num) (j : nat) : num :=
  nth None ys (size ys - j.+1).

(** [sum(self.phi_values[self.phi[j]] * y[-j-1] for j in range(self.order))]
    over the indices [js] still to come, [acc] being the running sum.
    The attribute, the dictionary entry and the array element are looked up
    in this order for every [j]. *)
Fixpoint gen_sum (self : AnalyticalAR) (ys : seq num) (js : seq nat)
    (acc : num) : result num :=
  if js is j :: js' then
    if phi_values self is Some phis then
      if (j < size phis)%N then
        if (j < size ys)%N then
          gen_sum self ys js' (nadd acc (nmul (nth None phis j) (from_end ys j)))
        else Raise IndexError
      else Raise KeyError
    else Raise AttributeError
  else Ok acc.

Definition next_pred (self : AnalyticalAR) (y : loc) : M num :=
  fun h => (gen_sum self (deref h y) (iota 0 (order self)) (Some 0), h).

(** The body of [for _ in range(steps)]; [y] is the local variable, rebound
    at every turn. *)
Fixpoint predict_loop (self : AnalyticalAR) (steps : nat)
    (predictions y : loc) : M unit :=
  if steps is steps'.+1 then
    pred <- next_pred self y ;;
    _ <- list_append predictions pred ;;
    y' <- np_append y pred ;;
    predict_loop self steps' predictions y'
  else ret tt.

(** [AnalyticalAR.predict(self, y, steps)]: the location of the returned
    array. *)
Definition predict (self : AnalyticalAR) (y : loc) (steps : nat) : M loc :=
  predictions <- new_list ;;
  _ <- predict_loop self steps predictions y ;;
  np_array predictions.

(** What the caller observes of a call: the returned values or the
    exception. *)
Definition outcome (r : result loc * heap) : result (seq num) :=
  match r with
  | (Ok l, h) => Ok (deref h l)
  | (Raise e, _) => Raise e
  end.

(** ** Fitted models and the recurrence *)

(** A model whose coefficient dictionary has one entry per lag. *)
Definition fitted (self : AnalyticalAR) : bool :=
  if phi_values self is Some phis then size phis == order self else false.

(** The coefficients of a model, in lag order. *)
Definition coeffs (self : AnalyticalAR) : seq num :=
  if phi_values self is Some phis then phis else [::].

(** What the loop of [predict] computes from the contents [ys] of the
    working array, without the heap. *)
Fixpoint rollout (self : AnalyticalAR) (ys : seq num) (steps : nat) :
    result (seq num) :=
  if steps is steps'.+1 then
    match gen_sum self ys (iota 0 (order self)) (Some 0) with
    | Ok pred =>
        match rollout self (rcons ys pred) steps' with
        | Ok ps => Ok (pred :: ps)
        | Raise e => Raise e
        end
    | Raise e => Raise e
    end
  else Ok [::].

(** The forecasts of a model with coefficients [phis] from the history
    [ys]. *)
Fixpoint forecast (phis ys : seq num) (steps : nat) : seq num :=
  if steps is steps'.+1 then
    let pred :=
      nsum [seq nmul (nth None phis j) (from_end ys j)
           | j <- iota 0 (size phis)] in
    pred :: forecast phis (rcons ys pred) steps'
  else [::].

(** ** The regression structure of the specification *)

(** Design matrix: one row for every time [t = p+1 .. N], holding
    [y(t-1), ..., y(t-p)]; row [r] is the one of time [t = r + p + 1]. *)
Definition design (y : seq rat) (p : nat) : seq (seq rat) :=
  [seq [seq nth 0 y (r + p - j.+1) | j <- iota 0 p]
  | r <- iota 0 (size y - p)].

(** Target vector [y(p+1), ..., y(N)]. *)
Definition target (y : seq rat) (p : nat) : seq rat :=
  [seq nth 0 y (r + p) | r <- iota 0 (size y - p)].

Definition dot (u w : seq rat) : rat := sumq [seq x.1 * x.2 | x <- zip u w].

Definition col (X : seq (seq rat)) (j : nat) : seq rat :=
  [seq nth 0 row j | row <- X].

(** [X w] and [X^T w] for a matrix [X] with [p] columns. *)
Definition mulmx_vec (X : seq (seq rat)) (w : seq rat) : seq rat :=
  [seq dot row w | row <- X].

Definition multr_vec (p : nat) (X : seq (seq rat)) (w : seq rat) : seq rat :=
  [seq dot (col X j) w | j <- iota 0 p].

(** [X^T X phi = X^T t] *)
Definition normal_equations (y : seq rat) (p : nat) (phi : seq rat) : Prop :=
  multr_vec p (design y p) (mulmx_vec (design y p) phi)
  = multr_vec p (design y p) (target y p).

(** Entries of [X^T X] and of [X^T t]. *)
Definition gram (y : seq rat) (p : nat) : nat -> nat -> rat :=
  fun j k => dot (col (design y p) j) (col (design y p) k).

Definition moment (y : seq rat) (p : nat) : nat -> rat :=
  fun j => dot (col (design y p) j) (target y p).

(** The lag design is non-singular when [X^T X] is. *)
Definition nonsingular (y : seq rat) (p : nat) : bool :=
  det_rat p (gram y p) != 0.

(** The columns of the design are linearly independent: no non-zero
    combination of them vanishes. *)
Definition independent_columns (y : seq rat) (p : nat) : Prop :=
  forall w : seq rat,
    size w = p -> mulmx_vec (design y p) w = nseq (size y - p) 0 ->
    w = nseq p 0.

(** Cramer's quotients as plain rationals. *)
Definition cramer (y : seq rat) (p : nat) : seq rat :=
  [seq det_rat p (repl_col (gram y p) k (moment y p)) / det_rat p (gram y p)
  | k <- iota 0 p].

(** Cramer's solution of [X^T X phi = X^T t], read as [subs] leaves it:
    no number when the determinant is zero. *)
Definition lstsq (y : seq rat) (p : nat) : seq num :=
  [seq if det_rat p (gram y p) == 0 then None
       else Some (det_rat p (repl_col (gram y p) k (moment y p))
                  / det_rat p (gram y p))
  | k <- iota 0 p].

(** Residuals [e(t) = y(t) - sum_j phi[j] * y(t-j)], [t = p+1 .. N], and
    the variance estimate of the specification,
    [(1 / (N - p - k)) * sum e(t)^2] with [k = p]. *)
Definition residuals (y : seq rat) (p : nat) (phi_hat : seq rat) : seq rat :=
  [seq x.1 - x.2 | x <- zip (target y p) (mulmx_vec (design y p) phi_hat)].

Definition sigma2_hat (y : seq rat) (p : nat) (phi_hat : seq rat) : rat :=
  ((size y - p - p)%:R)^-1 * sumq [seq e ^+ 2 | e <- residuals y p phi_hat].

(** ** Quantities of the stationarity system *)

(** Polynomial expressions whose data symbols all lie in [1 .. N]. *)
Fixpoint poly (N : nat) (e : expr) : bool :=
  match e with
  | Num _ | Phi _ => true
  | Ysym i => (0 < i <= N)%N
  | Add a b | Mul a b => poly N a && poly N b
  | Pow a n => (0 <= n) && poly N a
  | Log _ => false
  end.

(** The residual at time [t] under the coefficients [v] and the data
    [eta]. *)
Definition res (v eta : nat -> rat) (p t : nat) : rat :=
  eta t - \sum_(k <- iota 0 p) v k * eta (t - k - 1)%N.

(** Times [p+1 .. N], the regression rows. *)
Definition times (N p : nat) : seq nat := iota p.+1 (N.+1 - p.+1).

(** Numerator of the [j]-th stationarity equation. *)
Definition numer_eq (two_pi : rat) (N p j : nat) : expr :=
  (as_numer_denom (sp_diff j (log_likelihood two_pi N p))).1.

(** The common factor of the stationarity system: row [j] of it is
    [gamma * ((X^T X phi)_j - (X^T t)_j)]. *)
Definition gamma (two_pi : rat) (N p : nat) : rat :=
  half_rows N p * (two_pi * (inv_dof N p * 2%:R)).

(** The [n] x [n] matrix with entries [A i j]. *)
Definition mx_of (n : nat) (A : nat -> nat -> rat) : 'M[rat]_n :=
  \matrix_(i < n, j < n) A i j.

(** ** Example objects *)

Definition fib5 : seq rat := [:: 1; 1; 2%:R; 3%:R; 5%:R].

(** The model [fit] produces on [1, 1, 2, 3, 5] with order 2. *)
Definition fib_model : AnalyticalAR :=
  mkAR 2 (phi (init 2)) (Symbolic SymSigma2) (Some [:: Some 1; Some 1]).

(** A heap holding that series at location 0, another array with the same
    last two values at location 1 and a one-element array at location 2. *)
Definition fib_heap : heap :=
  [:: [seq Some x | x <- fib5]; [:: Some 9%:R; Some 3%:R; Some 5%:R];
      [:: Some 1]].


(** The series of the notebook's example cell. *)
Definition notebook_y : seq rat :=
  [:: 1; 2%:R; 2%:R; 5%:R; 8%:R; 14%:R].

(** A series of two observations and a constant series of three. *)
Definition two_obs : seq rat := [:: 1; 2%:R].
Definition ones3 : seq rat := [:: 1; 1; 1].

(** ** Models built by the class itself *)

(** The objects the constructor and [fit] can produce.  A call of [fit]
    that raises leaves the object as it was. *)
Inductive reachable : AnalyticalAR -> Prop :=
  | reach_init (order : nat) : reachable (init order)
  | reach_fit (two_pi : rat) (self s' : AnalyticalAR) (y : seq rat) :
      reachable self -> fit two_pi self y = Ok s' -> reachable s'.

(** A number that is finite. *)
Definition finite (a : num) : bool := if a is Some _ then true else false.

(** The array [c * y] of numpy. *)
Definition scale_num (c : rat) (ys : seq num) : seq num :=
  [seq nmul (Some c) x | x <- ys].

(** A heap holding the series at location 0 and its double at location 1. *)
Definition scale_heap : heap :=
  [:: [seq Some x | x <- fib5]; scale_num 2%:R [seq Some x | x <- fib5]].

(** ** Evaluation of the symbolic layer *)

Section Eval.

Variables (v eta : nat -> rat).

Local Notation ev := (evalp v eta).

Lemma is_zeroP (e : expr) : is_zero e -> e = Num 0.
Proof. by case: e => //= c /eqP ->. Qed.

Lemma evalp_sAdd (a b : expr) : ev (sAdd a b) = ev a + ev b.
Proof.
rewrite /sAdd; case: ifP => [/is_zeroP -> | _]; first by rewrite /= add0r.
by case: ifP => [/is_zeroP -> | _] //=; rewrite addr0.
Qed.

Lemma evalp_sMul (a b : expr) : ev (sMul a b) = ev a * ev b.
Proof.
rewrite /sMul; case: ifP => [/orP [] /is_zeroP -> | _] //=.
  by rewrite mul0r.
by rewrite mulr0.
Qed.

Lemma evalp_esum (s : seq expr) : ev (esum s) = \sum_(e <- s) ev e.
Proof.
by elim: s => [|e s IH]; rewrite ?big_nil ?big_cons //= evalp_sAdd IH.
Qed.

Lemma evalp_diff_sAdd (j : nat) (a b : expr) :
  ev (sp_diff j (sAdd a b)) = ev (sp_diff j a) + ev (sp_diff j b).
Proof.
rewrite /sAdd; case: ifP => [/is_zeroP -> | _]; first by rewrite /= add0r.
case: ifP => [/is_zeroP -> | _]; first by rewrite /= addr0.
by rewrite /= evalp_sAdd.
Qed.

Lemma evalp_diff_esum (j : nat) (s : seq expr) :
  ev (sp_diff j (esum s)) = \sum_(e <- s) ev (sp_diff j e).
Proof.
by elim: s => [|e s IH]; rewrite ?big_nil ?big_cons //= evalp_diff_sAdd IH.
Qed.

Lemma evalp_diff_Mul (j : nat) (a b : expr) :
  ev (sp_diff j (Mul a b)) = ev (sp_diff j a) * ev b + ev a * ev (sp_diff j b).
Proof. by rewrite /= evalp_sAdd !evalp_sMul. Qed.

Lemma evalp_diff_scale (j : nat) (c : rat) (a : expr) :
  ev (sp_diff j (Mul (Num c) a)) = c * ev (sp_diff j a).
Proof. by rewrite evalp_diff_Mul /= mul0r add0r. Qed.

Lemma evalp_diff_sqr (j : nat) (a : expr) :
  ev (sp_diff j (Pow a 2)) = 2%:R * ev a * ev (sp_diff j a).
Proof. by rewrite /= !evalp_sMul /= expr1z. Qed.

End Eval.

Section Poly.

Variable N : nat.

Lemma poly_sAdd (a b : expr) : poly N a -> poly N b -> poly N (sAdd a b).
Proof. by rewrite /sAdd => pa pb; do 2![case: ifP => _ //]; rewrite /= pa. Qed.

Lemma poly_sMul (a b : expr) : poly N a -> poly N b -> poly N (sMul a b).
Proof. by rewrite /sMul => pa pb; case: ifP => _ //=; rewrite pa. Qed.

Lemma poly_esum (s : seq expr) : all (poly N) s -> poly N (esum s).
Proof. by elim: s => [|e s IH] //= /andP [pe /IH ps]; apply: poly_sAdd. Qed.

Lemma poly_diff (j : nat) (e : expr) : poly N e -> poly N (sp_diff j e).
Proof.
elim: e => //= [a IHa b IHb | a IHa b IHb | a IHa n].
- by case/andP => /IHa pa /IHb pb; apply: poly_sAdd.
- case/andP => pa pb.
  by apply: poly_sAdd; apply: poly_sMul => //; [apply: IHa | apply: IHb].
- case/andP => n0 pa; case: n n0 => // [[|n]] _.
    by rewrite /sMul /is_zero eqxx.
  apply: poly_sMul; last exact: IHa.
  by apply: poly_sMul => //=; rewrite pa andbT subzSS subr0.
Qed.

Lemma poly_numer_denom (e : expr) :
  poly N e -> poly N (as_numer_denom e).1 && poly N (as_numer_denom e).2.
Proof.
elim: e => //= [i -> // | a IHa b IHb | a IHa b IHb | a IHa n].
- case/andP => /IHa + /IHb.
  case: (as_numer_denom a) => na da; case: (as_numer_denom b) => nb db /=.
  by move=> /andP [-> ->] /andP [-> ->].
- case/andP => /IHa + /IHb.
  case: (as_numer_denom a) => na da; case: (as_numer_denom b) => nb db /=.
  by move=> /andP [-> ->] /andP [-> ->].
- case/andP => n0 /IHa; case: n n0 => // n _.
  by case: (as_numer_denom a) => na da /= /andP [-> ->].
Qed.

Lemma evalp_numer_denom (v eta : nat -> rat) (e : expr) :
  poly N e ->
  evalp v eta (as_numer_denom e).1 = evalp v eta e /\
  evalp v eta (as_numer_denom e).2 = 1.
Proof.
elim: e => //= [a IHa b IHb | a IHa b IHb | a IHa n].
- case/andP => /IHa + /IHb.
  case: (as_numer_denom a) => na da; case: (as_numer_denom b) => nb db /=.
  by move=> [-> ->] [-> ->]; rewrite !mulr1.
- case/andP => /IHa + /IHb.
  case: (as_numer_denom a) => na da; case: (as_numer_denom b) => nb db /=.
  by move=> [-> ->] [-> ->]; rewrite !mulr1.
- case/andP => n0 /IHa; case: n n0 => // n _.
  by case: (as_numer_denom a) => na da /= [-> ->]; rewrite exp1rz.
Qed.

(** Substituting numbers for all symbols of a polynomial expression yields
    its value. *)
Lemma subs_subs_phi (y : seq rat) (w : nat -> rat) (e : expr) :
  N = size y -> poly N e ->
  subs (y_values y) (subs_phi w e)
  = Some (evalp w (fun i => nth 0 y i.-1) e).
Proof.
move=> ->; elim: e => //= [i | a IHa b IHb | a IHa b IHb | a IHa n].
- by rewrite /y_values => ->.
- by case/andP => /IHa -> /IHb ->.
- by case/andP => /IHa -> /IHb ->.
- case/andP => n0 /IHa ->; case: n n0 => //.
Qed.

End Poly.

(** ** The stationarity system of [fit] *)

(** Numerator of the derivative of [c * log u] for a polynomial [u]: the
    zero term of the product rule is dropped and the denominator [u]
    cleared, which leaves [c * u']. *)
Lemma numer_diff_log (N j : nat) (c : rat) (u : expr) :
  poly N u ->
  let n := (as_numer_denom (sp_diff j (Mul (Num c) (Log u)))).1 in
  poly N n /\
  forall v eta, evalp v eta n = c * evalp v eta (sp_diff j u).
Proof.
move=> pu.
have -> : sp_diff j (Mul (Num c) (Log u))
          = sMul (Num c) (sMul (sp_diff j u) (Pow u (-1))).
  by rewrite /= {1}/sMul /is_zero eqxx /= /sAdd /is_zero eqxx.
have pD := poly_diff j pu.
rewrite /sMul; case: (boolP (is_zero (sp_diff j u))) => [z | _] /=.
  by rewrite orbT /=; split=> // v eta; rewrite (is_zeroP z) /= mulr0.
rewrite orbF; have [-> | _] /= := eqVneq c 0.
  by split=> // v eta; rewrite mul0r.
have [] := andP (poly_numer_denom pD); have [] := andP (poly_numer_denom pu).
have := evalp_numer_denom _ _ pD; have := evalp_numer_denom _ _ pu.
case: (as_numer_denom (sp_diff j u)) => nD dD /=.
case: (as_numer_denom u) => nu du /= eu eD pnu pdu pnD pdD.
rewrite pnD pdu; split=> // v eta.
by have [_ ->] := eu v eta; have [-> _] := eD v eta; rewrite expr1z mulr1.
Qed.

Section Stationarity.

Variables (v eta : nat -> rat).

Local Notation ev := (evalp v eta).

Lemma evalp_residual (p t : nat) : ev (residual p t) = res v eta p t.
Proof. by rewrite /residual /= evalp_esum big_map /= mulN1r. Qed.

Lemma evalp_diff_residual (j p t : nat) :
  (j < p)%N -> ev (sp_diff j (residual p t)) = - eta (t - j - 1)%N.
Proof.
move=> jp; rewrite /residual /= evalp_sAdd /= add0r.
rewrite -/(sp_diff j (Mul (Num (-1)) _)) evalp_diff_scale mulN1r.
rewrite evalp_diff_esum big_map; congr (- _).
have E k : ev (sp_diff j (Mul (Phi k) (Ysym (t - k - 1))))
           = (k == j)%:R * eta (t - k - 1)%N.
  by rewrite evalp_diff_Mul /= mulr0 addr0.
rewrite (eq_bigr _ (fun k _ => E k)).
rewrite -[p]subn0 -/(index_iota 0 p) big_mkord (bigD1 (Ordinal jp)) //=.
rewrite eqxx mul1r big1 ?addr0 // => i; rewrite -val_eqE /= => /negPf ->.
by rewrite mul0r.
Qed.

Lemma poly_residual (N p t : nat) :
  (p < t <= N)%N -> poly N (residual p t).
Proof.
case/andP => pt tN; rewrite /residual /= tN (leq_ltn_trans (leq0n p) pt) /=.
apply: poly_esum; rewrite all_map; apply/allP => k; rewrite mem_iota add0n /=.
move=> kp; rewrite -subnDA addn1 subn_gt0 (leq_ltn_trans kp pt) /=.
exact: leq_trans (leq_subr _ _) tN.
Qed.

Lemma evalp_sigma2 (N p : nat) :
  ev (sigma2_expr N p)
  = inv_dof N p * \sum_(t <- times N p) res v eta p t ^+ 2.
Proof.
rewrite /sigma2_expr /Sum_doit /= evalp_esum big_map; congr (_ * _).
by apply: eq_bigr => t _; rewrite -evalp_residual.
Qed.

Lemma evalp_diff_sigma2 (N p j : nat) :
  (j < p)%N ->
  ev (sp_diff j (sigma2_expr N p))
  = inv_dof N p
    * \sum_(t <- times N p) 2%:R * res v eta p t * (- eta (t - j - 1)%N).
Proof.
move=> jp; rewrite /sigma2_expr evalp_diff_scale; congr (_ * _).
rewrite /Sum_doit evalp_diff_esum big_map; apply: eq_bigr => t _.
by rewrite evalp_diff_sqr evalp_residual evalp_diff_residual.
Qed.

End Stationarity.

Lemma poly_sigma2 (N p : nat) : poly N (sigma2_expr N p).
Proof.
rewrite /sigma2_expr /Sum_doit /=; apply: poly_esum.
rewrite all_map; apply/allP => t; rewrite mem_iota /= => /andP [pt].
rewrite subSS addSn; case: (leqP p N) => [pN | /ltnW Np].
  rewrite subnKC // ltnS => tN.
  by apply: (@poly_residual N p t); rewrite pt.
by move: Np; rewrite -subn_eq0 => /eqP ->; rewrite addn0 ltnNge pt.
Qed.

Section Numerators.

Variables (two_pi : rat) (N p : nat).

Lemma poly_numer_eq (j : nat) : poly N (numer_eq two_pi N p j).
Proof.
have pu : poly N (Mul (Num two_pi) (sigma2_expr N p)) by exact: poly_sigma2.
by have [] := numer_diff_log j (half_rows N p) pu.
Qed.

Lemma evalp_numer_eq (v eta : nat -> rat) (j : nat) :
  (j < p)%N ->
  evalp v eta (numer_eq two_pi N p j)
  = half_rows N p * (two_pi * (inv_dof N p
      * \sum_(t <- times N p)
          2%:R * res v eta p t * (- eta (t - j - 1)%N))).
Proof.
move=> jp.
have pu : poly N (Mul (Num two_pi) (sigma2_expr N p)) by exact: poly_sigma2.
have [_ ->] := numer_diff_log j (half_rows N p) pu.
by rewrite evalp_diff_scale evalp_diff_sigma2.
Qed.

End Numerators.

(** ** Determinants: the expansion used by the model is the determinant *)

Lemma skip_lt (j k n : nat) : (k < n)%N -> (skip j k < n.+1)%N.
Proof. by rewrite /skip => kn; case: ifP => _ //; apply: ltnW. Qed.

Section DetGeneric.

Variable T : Type.
Variables (zero one : T) (add mul : T -> T -> T) (opp : T -> T).

Local Notation dt := (det zero one add mul opp).

Lemma detS (n : nat) (A : nat -> nat -> T) :
  dt n.+1 A
  = foldr add zero
      [seq let t := mul (A 0%N j) (dt n (fun i k => A i.+1 (skip j k))) in
           if odd j then opp t else t
      | j <- iota 0 n.+1].
Proof. by []. Qed.

Lemma det_ext_in (n : nat) (A B : nat -> nat -> T) :
  (forall i k, (i < n)%N -> (k < n)%N -> A i k = B i k) ->
  dt n A = dt n B.
Proof.
elim: n A B => [|n IH] A B AB //; rewrite !detS.
congr (foldr _ _ _); apply/eq_in_map => j; rewrite mem_iota add0n /= => jn.
rewrite AB // (IH _ (fun i k => B i.+1 (skip j k))) // => i k iN kn.
by apply: AB => //; apply: skip_lt.
Qed.

End DetGeneric.

(** Substituting the data into a determinant of expressions. *)
Lemma subs_det (yv : nat -> num) (n : nat) (A : nat -> nat -> expr)
    (Av : nat -> nat -> rat) :
  (forall i k, (i < n)%N -> (k < n)%N -> subs yv (A i k) = Some (Av i k)) ->
  subs yv (det_expr n A) = Some (det_rat n Av).
Proof.
elim: n A Av => [|n IH] A Av AE //.
rewrite /det_expr /det_rat !detS -/det_expr -/det_rat.
have: {subset iota 0 n.+1 <= iota 0 n.+1} by [].
elim: {-2}(iota 0 n.+1) => [|j s IHs] // sub /=.
have jn : (j < n.+1)%N.
  by have := sub j (mem_head _ _); rewrite mem_iota add0n.
have /IHs -> : {subset s <= iota 0 n.+1}.
  by move=> x xs; apply: sub; rewrite inE xs orbT.
have E : subs yv (det_expr n (fun i k => A i.+1 (skip j k)))
         = Some (det_rat n (fun i k => Av i.+1 (skip j k))).
  by apply: IH => i k iN kn; apply: AE => //; apply: skip_lt.
by case: (odd j); rewrite /= -/det_expr E AE //= ?mulN1r.
Qed.

Section DetMatrix.

Lemma sumqE (s : seq rat) : sumq s = \sum_(x <- s) x.
Proof. by elim: s => [|x s IH]; rewrite ?big_nil ?big_cons //= IH. Qed.

Lemma sumq_map (I : Type) (F : I -> rat) (s : seq I) :
  sumq [seq F j | j <- s] = \sum_(j <- s) F j.
Proof. by rewrite sumqE big_map. Qed.

Lemma sumq_map_iota (n : nat) (F : nat -> rat) :
  sumq [seq F j | j <- iota 0 n] = \sum_(j < n) F j.
Proof. by rewrite sumq_map -(big_mkord xpredT F) /index_iota subn0. Qed.

Lemma mx_of_minor (n j : nat) (jn : (j < n.+1)%N) (A : nat -> nat -> rat) :
  mx_of n (fun i k => A i.+1 (skip j k))
  = row' ord0 (col' (Ordinal jn) (mx_of n.+1 A)).
Proof.
apply/matrixP => i k; rewrite !mxE /= /bump /= add1n /skip ltnNge.
by case: (j <= k)%N; rewrite ?add1n ?add0n.
Qed.

Lemma det_ratE (n : nat) (A : nat -> nat -> rat) :
  det_rat n A = \det (mx_of n A).
Proof.
elim: n A => [|n IH] A; first by rewrite det_mx00.
rewrite (expand_det_row _ ord0) /det_rat detS -/det_rat -/(sumq _).
rewrite sumq_map_iota; apply: eq_bigr => j _.
rewrite IH (mx_of_minor (ltn_ord j)) /cofactor !mxE /= add0n.
have -> : Ordinal (ltn_ord j) = j by apply: val_inj.
rewrite -signr_odd; case: (odd j); rewrite ?expr1 ?expr0 ?mulN1r ?mul1r //.
by rewrite mulrN.
Qed.

Lemma det_rat_ext (n : nat) (A B : nat -> nat -> rat) :
  (forall i k, (i < n)%N -> (k < n)%N -> A i k = B i k) ->
  det_rat n A = det_rat n B.
Proof. exact: det_ext_in. Qed.

Lemma det_rat_scale (n : nat) (c : rat) (A : nat -> nat -> rat) :
  det_rat n (fun i k => c * A i k) = c ^+ n * det_rat n A.
Proof.
rewrite !det_ratE -detZ; congr (\det _).
by apply/matrixP => i k; rewrite !mxE.
Qed.

Lemma repl_col_scale (c : rat) (A : nat -> nat -> rat) (b : nat -> rat)
    (k0 i k : nat) :
  repl_col (fun i k => c * A i k) k0 (fun i => c * b i) i k
  = c * repl_col A k0 b i k.
Proof. by rewrite /repl_col; case: ifP. Qed.

(** Cramer's rule for the expansion [det_rat]. *)
Lemma cramer_rat (n : nat) (A : nat -> nat -> rat) (b : nat -> rat) (i : nat) :
  det_rat n A != 0 -> (i < n)%N ->
  sumq [seq A i k * (det_rat n (repl_col A k b) / det_rat n A)
       | k <- iota 0 n]
  = b i.
Proof.
move=> dA iN; rewrite sumq_map_iota.
pose bv : 'cV[rat]_n := \col_i b i.
have rE (k : 'I_n) : det_rat n (repl_col A k b) = (\adj (mx_of n A) *m bv) k 0.
  rewrite det_ratE (expand_det_col _ k) mxE; apply: eq_bigr => l _.
  rewrite !mxE /repl_col eqxx mulrC; congr (_ * _).
  rewrite /cofactor; congr (_ * \det _).
  apply/matrixP => r s; rewrite !mxE /=.
  by rewrite eq_sym (negPf (neq_bump _ _)).
have := mul_mx_adj (mx_of n A); rewrite -det_ratE.
move/(congr1 (fun M : 'M_n => (M *m bv) (Ordinal iN) 0)).
rewrite -mulmxA mul_scalar_mx [LHS]mxE [RHS]mxE [in RHS]mxE => E.
apply: (mulfI dA); rewrite -[RHS]E mulr_sumr; apply: eq_bigr => k _.
by rewrite rE [in RHS]mxE /= mulrCA; congr (_ * _); rewrite mulrC divfK.
Qed.

End DetMatrix.

Section Regression.

Variables (y : seq rat) (p : nat).

Local Notation N := (size y).
Local Notation eta := (fun i => nth 0 y i.-1).

Lemma col_design (j : nat) :
  (j < p)%N ->
  col (design y p) j = [seq nth 0 y (r + p - j.+1) | r <- iota 0 (N - p)].
Proof.
move=> jp; rewrite /col /design -map_comp; apply: eq_map => r /=.
by rewrite (nth_map 0%N) ?size_iota // nth_iota.
Qed.

Lemma big_times (F : nat -> rat) :
  \sum_(t <- times N p) F t = \sum_(r <- iota 0 (N - p)) F (p.+1 + r)%N.
Proof. by rewrite /times subSS -[p.+1]addn0 iotaDl big_map addn0. Qed.

Lemma lag_index (r j : nat) :
  (j < p)%N -> (p.+1 + r - j - 1).-1 = (r + p - j.+1)%N.
Proof. by move/ltP => jp; rewrite -!plusE -!minusE; lia. Qed.

Lemma gramE (j k : nat) :
  (j < p)%N -> (k < p)%N ->
  gram y p j k
  = \sum_(t <- times N p) eta (t - j - 1)%N * eta (t - k - 1)%N.
Proof.
move=> jp kp; rewrite /gram /dot !col_design // zip_map -map_comp sumq_map.
rewrite big_times; apply: eq_bigr => r _ /=.
by rewrite !lag_index.
Qed.

Lemma momentE (j : nat) :
  (j < p)%N ->
  moment y p j = \sum_(t <- times N p) eta t * eta (t - j - 1)%N.
Proof.
move=> jp; rewrite /moment /dot /target col_design // zip_map -map_comp.
rewrite sumq_map big_times; apply: eq_bigr => r _ /=.
by rewrite lag_index // mulrC [(p + r)%N]addnC.
Qed.

End Regression.

(** ** [fit] computes the least-squares coefficients *)

Lemma sum_delta (p k : nat) (F : nat -> rat) :
  (k < p)%N -> \sum_(i <- iota 0 p) (i == k)%:R * F i = F k.
Proof.
move=> kp; rewrite -[p]subn0 -/(index_iota 0 p) big_mkord.
rewrite (bigD1 (Ordinal kp)) //= eqxx mul1r big1 ?addr0 // => i.
by rewrite -val_eqE /= => /negPf ->; rewrite mul0r.
Qed.

Lemma res_unit (eta : nat -> rat) (p k t : nat) :
  (k < p)%N -> res (unit_vec k) eta p t = eta t - eta (t - k - 1)%N.
Proof. by move=> kp; rewrite /res /unit_vec sum_delta. Qed.

Lemma res_zero (eta : nat -> rat) (p t : nat) :
  res zero_vec eta p t = eta t.
Proof.
by rewrite /res /zero_vec big1 ?subr0 // => i _; rewrite mul0r.
Qed.

Lemma gamma_neq0 (two_pi : rat) (N p : nat) :
  two_pi != 0 -> (2 * p < N)%N -> gamma two_pi N p != 0.
Proof.
move=> tp0 pN; have pN' : (p < N)%N.
  by apply: leq_ltn_trans pN; rewrite mul2n -addnn leq_addr.
rewrite /gamma /half_rows /inv_dof !mulf_neq0 ?oppr_eq0 ?invr_eq0 //.
- by rewrite mulf_neq0 ?invr_eq0 ?intr_eq0 ?subr_eq0 ?eqz_nat ?gtn_eqF.
- by rewrite intr_eq0 subr_eq0 eqz_nat gtn_eqF.
Qed.

Section FitSystem.

Variables (two_pi : rat) (y : seq rat) (p : nat).

Local Notation N := (size y).
Local Notation eta := (fun i => nth 0 y i.-1).
Local Notation nn := (fun w j => evalp w eta (numer_eq two_pi N p j)).

Lemma system_matrix (j k : nat) :
  (j < p)%N -> (k < p)%N ->
  nn (unit_vec k) j + -1 * nn zero_vec j = gamma two_pi N p * gram y p j k.
Proof.
move=> jp kp; rewrite /= !evalp_numer_eq // gramE // /gamma.
rewrite !mulr_sumr -big_split /=; apply: eq_bigr => t _.
by rewrite res_unit // res_zero; ring.
Qed.

Lemma system_rhs (j : nat) :
  (j < p)%N -> -1 * nn zero_vec j = gamma two_pi N p * moment y p j.
Proof.
move=> jp; rewrite /= !evalp_numer_eq // momentE // /gamma.
rewrite !mulr_sumr; apply: eq_bigr => t _.
by rewrite res_zero; ring.
Qed.

End FitSystem.

Section FitSolve.

Variables (two_pi : rat) (y : seq rat) (p : nat).
Hypothesis two_pi_neq0 : two_pi != 0.
Hypothesis enough : (2 * p < size y)%N.

Local Notation N := (size y).
Local Notation eta := (fun i => nth 0 y i.-1).
Local Notation nn := (fun w j => evalp w eta (numer_eq two_pi N p j)).
Local Notation g := (gamma two_pi N p).

Local Notation eqs :=
  [seq sp_diff j (log_likelihood two_pi N p) | j <- iota 0 p].
Local Notation b_sym := (linear_rhs eqs).
Local Notation A_sym := (linear_coeff eqs).

Lemma nth_eqs (j : nat) :
  (j < p)%N -> (as_numer_denom (nth (Num 0) eqs j)).1 = numer_eq two_pi N p j.
Proof.
by move=> jp; rewrite (nth_map 0%N) ?size_iota // nth_iota.
Qed.

Lemma subs_Add (yv : nat -> num) (a c : expr) :
  subs yv (Add a c) = nadd (subs yv a) (subs yv c).
Proof. by []. Qed.

Lemma subs_b_sym (j : nat) :
  (j < p)%N -> subs (y_values y) (b_sym j) = Some (g * moment y p j).
Proof.
move=> jp; rewrite /linear_rhs nth_eqs //= (@subs_subs_phi N) ?poly_numer_eq //=.
by rewrite -system_rhs.
Qed.

Lemma subs_A_sym (j k : nat) :
  (j < p)%N -> (k < p)%N ->
  subs (y_values y) (A_sym j k) = Some (g * gram y p j k).
Proof.
move=> jp kp; rewrite /linear_coeff subs_Add subs_b_sym // nth_eqs //.
rewrite (@subs_subs_phi N) ?poly_numer_eq //= -system_matrix //.
by rewrite system_rhs.
Qed.

Lemma subs_det_A :
  subs (y_values y) (det_expr p A_sym) = Some (g ^+ p * det_rat p (gram y p)).
Proof.
rewrite -det_rat_scale; apply: subs_det => j k jp kp.
exact: subs_A_sym.
Qed.

Lemma subs_det_repl (k : nat) :
  subs (y_values y) (det_expr p (repl_col A_sym k b_sym))
  = Some (g ^+ p * det_rat p (repl_col (gram y p) k (moment y p))).
Proof.
rewrite -det_rat_scale.
rewrite -(det_rat_ext
           (fun i k' _ _ => repl_col_scale g (gram y p) (moment y p) k i k')).
apply: subs_det => i k' ip kp'; rewrite /repl_col; case: ifP => _.
  exact: subs_b_sym.
exact: subs_A_sym.
Qed.

Lemma subs_solution (k : nat) :
  (k < p)%N ->
  subs (y_values y) (nth (Num 0) (sp_solve eqs p) k) = nth None (lstsq y p) k.
Proof.
move=> kp; rewrite /sp_solve /lstsq !(nth_map 0%N) ?size_iota // nth_iota //.
rewrite add0n /= subs_det_repl subs_det_A /=.
have gp : g ^+ p != 0 by rewrite expf_neq0 // gamma_neq0.
rewrite mulf_eq0 (negPf gp) /=; case: eqP => // _.
by rewrite exprN1 invfM mulrACA divff // mul1r.
Qed.

End FitSolve.

(** Above the boundary [N = 2 * order], [fit] stores exactly Cramer's
    solution of the normal equations, whatever non-zero constant stands
    under the logarithm. *)
Lemma fit_lstsq (two_pi : rat) (self : AnalyticalAR) (y : seq rat) :
  two_pi != 0 -> (2 * order self < size y)%N ->
  fit two_pi self y
  = Ok (mkAR (order self) (phi self) (sigma2 self)
             (Some (lstsq y (order self)))).
Proof.
move=> tp0 pN; rewrite /fit gtn_eqF // ltnNge (ltnW pN) /=.
congr (Ok (mkAR _ _ _ (Some _))).
apply: (@eq_from_nth _ None); rewrite !size_map // size_iota => k kp.
by rewrite (nth_map 0%N) ?size_iota // nth_iota // add0n subs_solution.
Qed.

Lemma lstsq_nonsingular (y : seq rat) (p : nat) :
  nonsingular y p -> lstsq y p = [seq Some x | x <- cramer y p].
Proof.
by rewrite /nonsingular /lstsq /cramer -map_comp => /negPf ->.
Qed.

Lemma dot_design_row (y phi : seq rat) (p r : nat) :
  size phi = p ->
  dot [seq nth 0 y (r + p - j.+1) | j <- iota 0 p] phi
  = \sum_(k <- iota 0 p) nth 0 y (r + p - k.+1) * nth 0 phi k.
Proof.
move=> sz; rewrite /dot -[in zip _ phi](mkseq_nth 0 phi) /mkseq sz zip_map.
by rewrite -map_comp sumq_map.
Qed.

Lemma cramer_normal_equations (y : seq rat) (p : nat) :
  nonsingular y p -> normal_equations y p (cramer y p).
Proof.
move=> ns; rewrite /normal_equations /multr_vec.
apply/eq_in_map => j; rewrite mem_iota add0n /= => jp.
rewrite -/(moment y p j) -(cramer_rat (moment y p) ns jp) sumq_map.
rewrite /mulmx_vec col_design // /design -map_comp /dot zip_map -map_comp.
rewrite sumq_map.
rewrite (eq_bigr (fun r => \sum_(k <- iota 0 p)
           nth 0 y (r + p - j.+1) * nth 0 y (r + p - k.+1)
           * nth 0 (cramer y p) k)).
  move=> r _ /=; rewrite -/(dot _ _) dot_design_row ?size_map ?size_iota //.
  by rewrite mulr_sumr; apply: eq_bigr => k _; rewrite mulrA.
rewrite exchange_big /=; apply: eq_big_seq => k; rewrite mem_iota add0n /= => kp.
rewrite -mulr_suml /cramer (nth_map 0%N) ?size_iota // nth_iota // add0n.
congr (_ * _); rewrite /gram !col_design // /dot zip_map -map_comp sumq_map.
by [].
Qed.

(** ** Non-singular designs *)

Lemma gram_sum (y : seq rat) (p j k : nat) :
  (j < p)%N -> (k < p)%N ->
  gram y p j k
  = \sum_(r < size y - p) nth 0 y (r + p - j.+1) * nth 0 y (r + p - k.+1).
Proof.
move=> jp kp; rewrite /gram /dot !col_design // zip_map -map_comp.
by rewrite sumq_map_iota.
Qed.

(** Linearly independent lag columns make [X^T X] non-singular. *)
Lemma independent_nonsingular (y : seq rat) (p : nat) :
  independent_columns y p -> nonsingular y p.
Proof.
move=> indep; rewrite /nonsingular det_ratE; apply/negP => /det0P [v v0 vG].
pose n := (size y - p)%N.
pose Xm : 'M[rat]_(n, p) := \matrix_(r, k) nth 0 y (r + p - k.+1).
have GE : mx_of p (gram y p) = Xm^T *m Xm.
  apply/matrixP => j k; rewrite !mxE gram_sum //; apply: eq_bigr => r _.
  by rewrite !mxE.
pose w := mkseq (fun k => oapp (v 0) 0 (insub k)) p.
have wE (k : 'I_p) : nth 0 w k = v 0 k.
  by rewrite nth_mkseq // valK.
have Xv0 : Xm *m v^T = 0.
  have: (Xm *m v^T)^T *m (Xm *m v^T) = 0.
    by rewrite trmx_mul trmxK mulmxA -[v *m _ *m _]mulmxA -GE vG mul0mx.
  move/matrixP => /(_ 0 0); rewrite [LHS]mxE [RHS]mxE => /eqP.
  rewrite psumr_eq0; first by move=> i _; rewrite mxE -expr2 sqr_ge0.
  move=> /allP z; apply/colP => i; rewrite [RHS]mxE.
  have := z i (mem_index_enum _); rewrite /= [X in X * _]mxE -expr2 sqrf_eq0.
  by move/eqP.
have w0 : w = nseq p 0.
  apply: indep; first by rewrite size_mkseq.
  apply: (@eq_from_nth _ 0).
    by rewrite /mulmx_vec /design !size_map size_iota size_nseq.
  rewrite /mulmx_vec /design !size_map size_iota => r rn.
  rewrite -map_comp (nth_map 0%N) ?size_iota // nth_iota // add0n /=.
  rewrite -/(dot _ _) dot_design_row ?size_mkseq // nth_nseq rn.
  transitivity ((Xm *m v^T) (Ordinal rn) 0); last by rewrite Xv0 mxE.
  rewrite mxE -[p in iota 0 p]subn0 -/(index_iota 0 p) big_mkord.
  by apply: eq_bigr => k _; rewrite wE !mxE.
case/eqP: v0; apply/rowP => k; rewrite -wE w0 nth_nseq mxE.
by case: ifP.
Qed.

(** With fewer rows than columns ([N < 2p]) [X^T X] is singular whatever
    the data: the determinant of the stationarity system vanishes
    identically and the system has no isolated solution.  This is the case
    in which [sp.solve] returns the empty list and [fit] raises. *)
Lemma short_series_singular (y : seq rat) (p : nat) :
  (size y < 2 * p)%N -> ~~ nonsingular y p.
Proof.
move=> lt; rewrite /nonsingular negbK det_ratE.
pose n := (size y - p)%N.
pose Xm : 'M[rat]_(n, p) := \matrix_(r, k) nth 0 y (r + p - k.+1).
have GE : mx_of p (gram y p) = Xm^T *m Xm.
  apply/matrixP => j k; rewrite !mxE gram_sum //; apply: eq_bigr => r _.
  by rewrite !mxE.
have np : (n < p)%N by apply/ltP; move/ltP: lt; rewrite /n -!multE -!minusE; lia.
rewrite -[_ == 0]negbK -unitfE -unitmxE; apply/negP => U.
have := leq_trans (mxrankM_maxr Xm^T Xm) (rank_leq_row Xm).
by rewrite -GE (mxrank_unit U) leqNgt np.
Qed.

(** Every numerator of the stationarity system is the corresponding row of
    the normal equations, up to the common factor. *)
Lemma numer_eq_normal (two_pi : rat) (y : seq rat) (p j : nat)
    (v : nat -> rat) :
  (j < p)%N ->
  evalp v (fun i => nth 0 y i.-1) (numer_eq two_pi (size y) p j)
  = gamma two_pi (size y) p
    * (\sum_(k <- iota 0 p) gram y p j k * v k - moment y p j).
Proof.
move=> jp; rewrite evalp_numer_eq // momentE // /gamma -!mulrA.
do 3![congr (_ * _)].
rewrite [in RHS](eq_big_seq (fun k => \sum_(t <- times (size y) p)
           nth 0 y (t - j - 1).-1 * nth 0 y (t - k - 1).-1 * v k)).
  by move=> k; rewrite mem_iota add0n /= => kp; rewrite gramE // mulr_suml.
rewrite exchange_big /= -sumrB mulr_sumr; apply: eq_bigr => t _.
have -> : \sum_(k <- iota 0 p) nth 0 y (t - j - 1).-1 * nth 0 y (t - k - 1).-1 * v k
          = nth 0 y (t - j - 1).-1 * \sum_(k <- iota 0 p) v k * nth 0 y (t - k - 1).-1.
  by rewrite mulr_sumr; apply: eq_bigr => k _; ring.
by rewrite /res; ring.
Qed.

(** C1.  For every series [y] of length [N > 2p] whose lag design is
    non-singular, [fit] succeeds and stores finite coefficients [phi_hat]
    that satisfy the normal equations [X^T X phi = X^T t] of the
    [(N-p) x p] lag design; at [phi_hat] and the data, the numerator of
    every derivative of the log-likelihood that [fit] differentiates is 0,
    i.e. the stationary point found symbolically is the least-squares
    solution. *)
Theorem fit_normal_equations (two_pi : rat) (y : seq rat) (p : nat) :
  two_pi != 0 -> (2 * p < size y)%N -> nonsingular y p ->
  exists phi_hat : seq rat,
    [/\ fit two_pi (init p) y
        = Ok (mkAR p (phi (init p)) (Symbolic SymSigma2)
                   (Some [seq Some x | x <- phi_hat])),
        size phi_hat = p,
        normal_equations y p phi_hat
      & forall j, (j < p)%N ->
          subs (y_values y)
            (subs_phi (nth 0 phi_hat)
               (as_numer_denom
                  (sp_diff j (log_likelihood two_pi (size y) p))).1)
          = Some 0].
Proof.
move=> tp0 pN ns; exists (cramer y p); split.
- by rewrite fit_lstsq // lstsq_nonsingular.
- by rewrite /cramer size_map size_iota.
- exact: cramer_normal_equations.
- move=> j jp; rewrite -/(numer_eq two_pi (size y) p j).
  rewrite (@subs_subs_phi (size y)) ?poly_numer_eq // numer_eq_normal //.
  rewrite -(cramer_rat (moment y p) ns jp) sumq_map.
  rewrite [X in X - _](_ : _ = \sum_(k <- iota 0 p) gram y p j k
            * (det_rat p (repl_col (gram y p) k (moment y p))
               / det_rat p (gram y p))) ?subrr ?mulr0 //.
  apply: eq_big_seq => k; rewrite mem_iota add0n /= => kp.
  by rewrite /cramer (nth_map 0%N) ?size_iota // nth_iota.
Qed.

Lemma fit_normal_equations_witness :
  exists phi_hat : seq rat,
    [/\ fit 1 (init 2) fib5
        = Ok (mkAR 2 (phi (init 2)) (Symbolic SymSigma2)
                   (Some [seq Some x | x <- phi_hat])),
        size phi_hat = 2%N,
        normal_equations fib5 2 phi_hat
      & forall j, (j < 2)%N ->
          subs (y_values fib5)
            (subs_phi (nth 0 phi_hat)
               (as_numer_denom
                  (sp_diff j (log_likelihood 1 (size fib5) 2))).1)
          = Some 0].
Proof. by apply: (@fit_normal_equations 1 fib5 2); vm_compute. Defined.

(** ** [predict] *)

Section PredictHeap.

Variable self : AnalyticalAR.

Lemma deref_set_nth (h : heap) (l l' : loc) (v : seq num) :
  deref (set_nth [::] h l v) l' = if l' == l then v else deref h l'.
Proof. by rewrite /deref nth_set_nth. Qed.

Lemma deref_rcons (h : heap) (l : loc) (v : seq num) :
  deref (rcons h v) l
  = if (l < size h)%N then deref h l else if l == size h then v else [::].
Proof. by rewrite /deref nth_rcons. Qed.

(** The loop allocates above the old heap, writes only to the list of
    predictions, and leaves there the values of [rollout]. *)
Lemma predict_loop_spec (steps : nat) (pl yl : loc) (h : heap) :
  (pl < size h)%N -> (yl < size h)%N -> yl != pl ->
  let: (r, h') := predict_loop self steps pl yl h in
  [/\ (size h <= size h')%N,
      forall l, (l < size h)%N -> l != pl -> deref h' l = deref h l
    & match rollout self (deref h yl) steps with
      | Ok ps => r = Ok tt /\ deref h' pl = deref h pl ++ ps
      | Raise e => r = Raise e
      end].
Proof.
elim: steps yl h => [|s IH] yl h plh ylh ne /=.
  by split=> //; rewrite cats0.
rewrite /bind /next_pred.
case E: (gen_sum self (deref h yl) (iota 0 (order self)) (Some 0)) => [pred|e];
  last by split.
rewrite /list_append /np_append /=.
set h1 := set_nth [::] h pl (rcons (deref h pl) pred).
have sz1 : size h1 = size h by rewrite size_set_nth; apply/maxn_idPr.
set h2 := rcons h1 (rcons (deref h1 yl) pred).
have plh2 : (pl < size h2)%N by rewrite size_rcons sz1 ltnS ltnW.
have ylh2 : (size h1 < size h2)%N by rewrite size_rcons.
have ne2 : size h1 != pl by rewrite sz1 gtn_eqF.
have := IH (size h1) h2 plh2 ylh2 ne2.
case: (predict_loop self s pl (size h1) h2) => r h' [szh' frame res].
have d1 : deref h1 yl = deref h yl by rewrite deref_set_nth (negPf ne).
have dy : deref h2 (size h1) = rcons (deref h yl) pred.
  by rewrite deref_rcons ltnn eqxx d1.
have dp : deref h2 pl = rcons (deref h pl) pred.
  by rewrite deref_rcons sz1 plh deref_set_nth eqxx.
split.
- by apply: leq_trans szh'; rewrite size_rcons sz1.
- move=> l lh lne; rewrite frame ?size_rcons ?sz1 ?ltnS 1?ltnW //.
  by rewrite deref_rcons sz1 lh deref_set_nth (negPf lne).
- move: res; rewrite dy dp.
  case: (rollout self (rcons (deref h yl) pred) s) => [ps|e] //.
  by case=> -> ->; rewrite cat_rcons.
Qed.

(** A call of [predict] observed from outside. *)
Lemma predict_spec (y : loc) (steps : nat) (h : heap) :
  (y < size h)%N ->
  let: (r, h') := predict self y steps h in
  [/\ (size h <= size h')%N,
      forall l, (l < size h)%N -> deref h' l = deref h l,
      if r is Ok l then (size h < l < size h')%N else true
    & outcome (r, h') = rollout self (deref h y) steps].
Proof.
move=> yh; rewrite /predict /bind /new_list /np_array.
have plh : (size h < size (rcons h [::]))%N by rewrite size_rcons.
have yh' : (y < size (rcons h [::]))%N by rewrite size_rcons ltnW.
have ne : y != size h by rewrite ltn_eqF.
have := predict_loop_spec steps plh yh' ne.
case: (predict_loop self steps (size h) y (rcons h [::])) => r h' [sz fr res].
have szh : (size h < size h')%N by apply: leq_trans sz; rewrite size_rcons.
have frame l : (l < size h)%N -> deref h' l = deref h l.
  move=> lh; rewrite fr ?size_rcons 1?ltnW ?ltn_eqF //.
  by rewrite deref_rcons lh.
move: res; rewrite deref_rcons yh deref_rcons ltnn eqxx.
case: (rollout self (deref h y) steps) => [ps|e].
  case=> -> dp; split=> /=.
  - by rewrite size_rcons; apply: leqW; apply: ltnW.
  - by move=> l lh; rewrite deref_rcons (ltn_trans lh szh) frame.
  - by rewrite szh size_rcons ltnSn.
  - by rewrite deref_rcons ltnn eqxx dp.
by move=> ->; split=> //; apply: ltnW.
Qed.

End PredictHeap.

(** ** The recurrence computed by [predict] *)

Section Rollout.

Variable self : AnalyticalAR.
Hypothesis self_fitted : fitted self.

Local Notation p := (order self).

Lemma coeffsE : phi_values self = Some (coeffs self).
Proof. by move: self_fitted; rewrite /fitted /coeffs; case: phi_values. Qed.

Lemma size_coeffs : size (coeffs self) = p.
Proof.
by move: self_fitted; rewrite /fitted /coeffs; case: phi_values => // s /eqP.
Qed.

Lemma gen_sum_ok (ys : seq num) (js : seq nat) (acc : num) :
  all (fun j => (j < p)%N && (j < size ys)%N) js ->
  gen_sum self ys js acc
  = Ok (foldl nadd acc
          [seq nmul (nth None (coeffs self) j) (from_end ys j) | j <- js]).
Proof.
elim: js acc => [|j js IH] acc //= /andP [/andP [jp jy] /IH E].
by rewrite coeffsE size_coeffs jp jy E.
Qed.

Lemma gen_sum_short (ys : seq num) (js1 js2 : seq nat) (j : nat) (acc : num) :
  all (fun j => (j < p)%N && (j < size ys)%N) js1 ->
  (j < p)%N -> (size ys <= j)%N ->
  gen_sum self ys (js1 ++ j :: js2) acc = Raise IndexError.
Proof.
move=> + jp jy; elim: js1 acc => [|i js1 IH] acc /=.
  by rewrite coeffsE size_coeffs jp ltnNge jy.
by case/andP => /andP [ip iy] /IH E; rewrite coeffsE size_coeffs ip iy E.
Qed.

Lemma gen_sum_enough (ys : seq num) :
  (p <= size ys)%N ->
  gen_sum self ys (iota 0 p) (Some 0)
  = Ok (nsum [seq nmul (nth None (coeffs self) j) (from_end ys j)
             | j <- iota 0 p]).
Proof.
move=> pN; apply: gen_sum_ok; apply/allP => j; rewrite mem_iota add0n /=.
by move=> jp; rewrite jp (leq_trans jp pN).
Qed.

Lemma gen_sum_too_short (ys : seq num) :
  (size ys < p)%N ->
  gen_sum self ys (iota 0 p) (Some 0) = Raise IndexError.
Proof.
move=> Np; rewrite -(subnKC (ltnW Np)) iotaD add0n.
case E: (p - size ys)%N => [|d]; first by move: Np; rewrite -subn_gt0 E.
apply: gen_sum_short => //.
apply/allP => j; rewrite mem_iota add0n /= => jN.
by rewrite jN (ltn_trans jN Np).
Qed.

Lemma rollout_enough (ys : seq num) (steps : nat) :
  (p <= size ys)%N ->
  rollout self ys steps = Ok (forecast (coeffs self) ys steps).
Proof.
elim: steps ys => [|s IH] ys pN //=.
by rewrite gen_sum_enough // IH ?size_rcons ?size_coeffs // ltnW.
Qed.

Lemma rollout_too_short (ys : seq num) (steps : nat) :
  (size ys < p)%N ->
  rollout self ys steps = if steps is 0%N then Ok [::] else Raise IndexError.
Proof. by case: steps => [|s] Np //=; rewrite gen_sum_too_short. Qed.

End Rollout.

Lemma size_forecast (phis ys : seq num) (steps : nat) :
  size (forecast phis ys steps) = steps.
Proof. by elim: steps ys => [|s IH] ys //=; rewrite IH. Qed.

Lemma from_end_cat (ys zs : seq num) (j : nat) :
  (j < size ys)%N ->
  from_end ys j = nth None (ys ++ zs) (size ys - j.+1).
Proof.
move=> jN; rewrite /from_end nth_cat ltn_subrL /=.
by rewrite (leq_ltn_trans (leq0n j) jN).
Qed.

(** Every forecast is the recurrence applied to the history extended by the
    forecasts before it. *)
Lemma forecast_nth (phis ys : seq num) (steps i : nat) :
  (size phis <= size ys)%N -> (i < steps)%N ->
  nth None (forecast phis ys steps) i
  = nsum [seq nmul (nth None phis j)
                   (nth None (ys ++ forecast phis ys steps)
                             (size ys + i - j.+1))
         | j <- iota 0 (size phis)].
Proof.
elim: steps ys i => [|s IH] ys i pN // ; case: i => [_|i] /=.
  congr nsum; apply/eq_in_map => j; rewrite mem_iota add0n /= => jp.
  by rewrite addn0 -from_end_cat // (leq_trans jp pN).
rewrite ltnS => lt_is; rewrite (IH (rcons ys _) i) ?size_rcons ?leqW //.
by rewrite cat_rcons addSnnS.
Qed.

Lemma from_end_rcons (ys : seq num) (x : num) (j : nat) :
  (j <= size ys)%N ->
  from_end (rcons ys x) j = if j is j'.+1 then from_end ys j' else x.
Proof.
rewrite /from_end size_rcons subSS nth_rcons; case: j => [|j] jN.
  by rewrite subn0 ltnn eqxx.
by rewrite ltn_subrL /= (leq_ltn_trans (leq0n j) jN).
Qed.

(** The forecasts depend on the history through its last elements only. *)
Lemma forecast_suffix (phis ys1 ys2 : seq num) (steps : nat) :
  (size phis <= size ys1)%N -> (size phis <= size ys2)%N ->
  (forall j, (j < size phis)%N -> from_end ys1 j = from_end ys2 j) ->
  forecast phis ys1 steps = forecast phis ys2 steps.
Proof.
elim: steps ys1 ys2 => [|s IH] ys1 ys2 p1 p2 agree //=.
have -> : [seq nmul (nth None phis j) (from_end ys1 j) | j <- iota 0 (size phis)]
        = [seq nmul (nth None phis j) (from_end ys2 j) | j <- iota 0 (size phis)].
  by apply/eq_in_map => j; rewrite mem_iota add0n /= => /agree ->.
congr (_ :: _); apply: IH; rewrite ?size_rcons 1?ltnW // => j jp.
rewrite !from_end_rcons ?(leq_trans (ltnW jp)) //.
by case: j jp => // j /ltnW /agree.
Qed.

Lemma fit_fib5 : fit 1 (init 2) fib5 = Ok fib_model.
Proof. by vm_compute. Qed.

(** The example cell of the notebook: order 2 on [1, 2, 2, 5, 8, 14].  The
    coefficients are 26/27 and 35/27 and the first prediction is
    644/27 = 23.85185..., the first value of the recorded output. *)
Lemma notebook_fit :
  fit 1 (init 2) notebook_y
  = Ok (mkAR 2 (phi (init 2)) (Symbolic SymSigma2)
          (Some [:: Some (26%:R / 27%:R); Some (35%:R / 27%:R)])).
Proof. by vm_compute. Qed.

Lemma notebook_predict :
  outcome
    (predict
       (mkAR 2 (phi (init 2)) (Symbolic SymSigma2)
          (Some [:: Some (26%:R / 27%:R); Some (35%:R / 27%:R)]))
       0 1 [:: [seq Some x | x <- notebook_y]])
  = Ok [:: Some (644%:R / 27%:R)].
Proof. by vm_compute. Qed.

Lemma predict_fib5 :
  outcome (predict fib_model 0 3 fib_heap)
  = Ok [:: Some 8%:R; Some 13%:R; Some 21%:R].
Proof. by vm_compute. Qed.

(** ** Claims about [predict] *)

(** C3.  For a fitted model of order [p], a history of at least [p] values
    and a horizon [h], [predict] returns [h] values and, numbering the
    history [y(1) .. y(N)] and the forecasts [y(N+1) .. y(N+h)], every
    forecast is [y(N+i) = sum_{j=1}^{p} phi[j-1] * y(N+i-j)]: inputs above
    [N] are the forecasts produced before, nothing else enters. *)
Theorem predict_recurrence (self : AnalyticalAR) (h : heap) (y : loc)
    (steps : nat) :
  fitted self -> (y < size h)%N -> (order self <= size (deref h y))%N ->
  exists preds : seq num,
    [/\ outcome (predict self y steps h) = Ok preds,
        size preds = steps
      & let N := size (deref h y) in
        let yy t := nth None (deref h y ++ preds) t.-1 in
        forall i, (0 < i <= steps)%N ->
          yy (N + i)%N
          = nsum [seq nmul (nth None (coeffs self) j.-1) (yy (N + i - j)%N)
                 | j <- iota 1 (order self)]].
Proof.
move=> fit_ok yh pN; exists (forecast (coeffs self) (deref h y) steps).
have := predict_spec self steps yh.
case: (predict self y steps h) => r h' [_ _ _ ->].
rewrite rollout_enough // size_forecast; split=> // N yy [//|i] /=.
move=> lt_is; rewrite /yy addnS /= nth_cat ltnNge leq_addr /=.
rewrite addKn forecast_nth ?size_coeffs // (iotaDl 1 0) -map_comp.
by congr nsum; apply: eq_map => j /=; rewrite add1n subSS subnS.
Qed.

Lemma predict_recurrence_witness :
  exists preds : seq num,
    [/\ outcome (predict fib_model 0 3 fib_heap) = Ok preds,
        size preds = 3%N
      & let N := size (deref fib_heap 0) in
        let yy t := nth None (deref fib_heap 0 ++ preds) t.-1 in
        forall i, (0 < i <= 3)%N ->
          yy (N + i)%N
          = nsum [seq nmul (nth None (coeffs fib_model) j.-1) (yy (N + i - j)%N)
                 | j <- iota 1 (order fib_model)]].
Proof. exact: (@predict_recurrence fib_model fib_heap 0 3). Defined.

(** C7.  Two calls of [predict] with the same model, history and horizon,
    the second one running in the state the first one left, have the same
    outcome: nothing the first call wrote is read by the second. *)
Theorem predict_deterministic (self : AnalyticalAR) (h : heap) (y : loc)
    (steps : nat) :
  (y < size h)%N ->
  outcome (predict self y steps (predict self y steps h).2)
  = outcome (predict self y steps h).
Proof.
move=> yh; have := predict_spec self steps yh.
case: (predict self y steps h) => r h' [sz frame _ ->] /=.
have yh' : (y < size h')%N by apply: leq_trans sz.
have := predict_spec self steps yh'.
by case: (predict self y steps h') => r' h'' [_ _ _ ->]; rewrite frame.
Qed.

Lemma predict_deterministic_witness :
  outcome (predict fib_model 0 3 (predict fib_model 0 3 fib_heap).2)
  = outcome (predict fib_model 0 3 fib_heap).
Proof. exact: (@predict_deterministic fib_model fib_heap 0 3). Defined.

(** C8.  For a fitted model of order [p], a history of at least [p] values
    and a horizon [h >= 0], [predict] returns exactly [h] values. *)
Theorem predict_length (self : AnalyticalAR) (h : heap) (y : loc)
    (steps : nat) :
  fitted self -> (y < size h)%N -> (order self <= size (deref h y))%N ->
  exists2 preds : seq num,
    outcome (predict self y steps h) = Ok preds & size preds = steps.
Proof.
move=> fit_ok yh pN; exists (forecast (coeffs self) (deref h y) steps).
  have := predict_spec self steps yh.
  by case: (predict self y steps h) => r h' [_ _ _ ->]; rewrite rollout_enough.
exact: size_forecast.
Qed.

Lemma predict_length_witness :
  exists2 preds : seq num,
    outcome (predict fib_model 0 3 fib_heap) = Ok preds & size preds = 3%N.
Proof. exact: (@predict_length fib_model fib_heap 0 3). Defined.

(** C9.  [predict] leaves every array that existed before the call as it
    was, the caller's history in particular, whether it returns or raises;
    the array it returns is a new one. *)
Theorem predict_frame (self : AnalyticalAR) (h : heap) (y : loc)
    (steps : nat) :
  (y < size h)%N ->
  [/\ deref (predict self y steps h).2 y = deref h y,
      forall l, (l < size h)%N -> deref (predict self y steps h).2 l = deref h l
    & forall r, (predict self y steps h).1 = Ok r -> (size h < r)%N].
Proof.
move=> yh; have := predict_spec self steps yh.
case: (predict self y steps h) => r h' [_ frame fresh _] /=.
split=> [||l E]; [exact: frame | exact: frame |].
by move: fresh; rewrite E => /andP [].
Qed.

Lemma predict_frame_witness :
  [/\ deref (predict fib_model 0 3 fib_heap).2 0 = deref fib_heap 0,
      forall l, (l < size fib_heap)%N ->
        deref (predict fib_model 0 3 fib_heap).2 l = deref fib_heap l
    & forall r, (predict fib_model 0 3 fib_heap).1 = Ok r ->
        (size fib_heap < r)%N].
Proof. exact: (@predict_frame fib_model fib_heap 0 3). Defined.

(** C10.  For a fitted model of order [p], two histories of at least [p]
    values that agree on their last [p] elements give the same forecasts
    for the same horizon. *)
Theorem predict_last_p (self : AnalyticalAR) (h : heap) (y1 y2 : loc)
    (steps : nat) :
  fitted self -> (y1 < size h)%N -> (y2 < size h)%N ->
  (order self <= size (deref h y1))%N ->
  (order self <= size (deref h y2))%N ->
  (forall j, (j < order self)%N ->
     from_end (deref h y1) j = from_end (deref h y2) j) ->
  outcome (predict self y1 steps h) = outcome (predict self y2 steps h).
Proof.
move=> fit_ok y1h y2h p1 p2 agree.
have := predict_spec self steps y1h; have := predict_spec self steps y2h.
case: (predict self y2 steps h) => r2 h2 [_ _ _ ->].
case: (predict self y1 steps h) => r1 h1 [_ _ _ ->].
rewrite !rollout_enough //; congr Ok.
by apply: forecast_suffix; rewrite ?size_coeffs.
Qed.

Lemma predict_last_p_witness :
  outcome (predict fib_model 0 3 fib_heap)
  = outcome (predict fib_model 1 3 fib_heap).
Proof.
by apply: (@predict_last_p fib_model fib_heap 0 1 3) => // [[|[|j]]].
Defined.

(** C6 as stated fails: a history shorter than the order makes [predict]
    raise the array's own [IndexError] when [steps] is positive, and
    return normally when [steps] is 0. *)
Lemma predict_short_history_counterexample :
  [/\ fitted fib_model,
      (size (deref fib_heap 2) < order fib_model)%N,
      outcome (predict fib_model 2 1 fib_heap) = Raise IndexError,
      outcome (predict fib_model 2 1 fib_heap)
        <> Raise InsufficientHistoryError
    & outcome (predict fib_model 2 0 fib_heap) = Ok [::]].
Proof. by split. Qed.

(** C6, amended.  For a fitted model of order [p] and a history of fewer
    than [p] values, [predict] with a positive number of steps raises
    [IndexError] from the subscript [y[-j-1]] of the first step; with zero
    steps it returns the empty array. *)
Theorem predict_short_history (self : AnalyticalAR) (h : heap) (y : loc)
    (steps : nat) :
  fitted self -> (y < size h)%N -> (size (deref h y) < order self)%N ->
  outcome (predict self y steps h)
  = if steps is 0%N then Ok [::] else Raise IndexError.
Proof.
move=> fit_ok yh short; have := predict_spec self steps yh.
case: (predict self y steps h) => r h' [_ _ _ ->].
exact: rollout_too_short.
Qed.

Lemma predict_short_history_witness :
  outcome (predict fib_model 2 3 fib_heap) = Raise IndexError.
Proof. exact: (@predict_short_history fib_model fib_heap 2 3). Defined.

(** ** Claims about the failures of [fit] *)

(** Every exception [fit] raises is a built-in one. *)
Lemma fit_raises_builtin (two_pi : rat) (self : AnalyticalAR) (y : seq rat)
    (e : exn) :
  fit two_pi self y = Raise e -> builtin_exn e.
Proof.
rewrite /fit; case: ifP => _; first by case=> <-.
by case: ifP => _ // [<-].
Qed.

(** C4 as stated fails: with [N = p + 1 = 2] the division
    [1 / (N - 2 * order)] raises [ZeroDivisionError]. *)
Lemma fit_boundary_counterexample :
  [/\ (size two_obs <= 1 + 1)%N,
      fit 1 (init 1) two_obs = Raise ZeroDivisionError
    & fit 1 (init 1) two_obs <> Raise InsufficientDataError].
Proof. by split. Qed.

(** C4, amended.  For every series of length [N <= p + 1] and order
    [p >= 1], [fit] raises a built-in exception and stores nothing.  The
    exception is [ZeroDivisionError], from [1 / (N - 2 * order)], when
    [N = 2p], which under [N <= p + 1] is the single case [p = 1], [N = 2].
    In every other case the design has fewer rows than columns, [X^T X] is
    singular whatever the data, and the exception is the [TypeError] of the
    subscript [phi_solutions[self.phi[j]]] into the empty list [sp.solve]
    returns. *)
Theorem fit_insufficient_data (two_pi : rat) (y : seq rat) (p : nat) :
  (0 < p)%N -> (size y <= p + 1)%N ->
  [/\ fit two_pi (init p) y
      = Raise (if size y == (2 * p)%N then ZeroDivisionError else TypeError),
      (size y == (2 * p)%N) = (p == 1%N) && (size y == 2%N),
      size y != (2 * p)%N -> ~~ nonsingular y p
    & builtin_exn
        (if size y == (2 * p)%N then ZeroDivisionError else TypeError)].
Proof.
move=> p0 Np.
have lt : size y != (2 * p)%N -> (size y < 2 * p)%N.
  move=> ne; rewrite ltn_neqAle ne (leq_trans Np) // mul2n -addnn.
  by rewrite leq_add2l.
split; last by case: ifP.
- by rewrite /fit /=; case: eqP => [// | /eqP /lt ->].
- apply/eqP/andP => [E | [/eqP -> /eqP ->] //].
  move: Np; rewrite E mul2n -addnn leq_add2l => p1.
  by have /eqP -> : p == 1%N by rewrite eqn_leq p1 p0.
- by move=> /lt; apply: short_series_singular.
Qed.

Lemma fit_insufficient_data_witness :
  [/\ fit 1 (init 2) two_obs
      = Raise (if size two_obs == (2 * 2)%N then ZeroDivisionError
               else TypeError),
      (size two_obs == (2 * 2)%N) = (2%N == 1%N) && (size two_obs == 2%N),
      size two_obs != (2 * 2)%N -> ~~ nonsingular two_obs 2
    & builtin_exn
        (if size two_obs == (2 * 2)%N then ZeroDivisionError else TypeError)].
Proof. exact: (@fit_insufficient_data 1 two_obs 2). Defined.

(** *** Constant series *)

Section Constant.

Variables (c : rat) (N p : nat).
Hypothesis enough : (2 * p < N)%N.

Local Notation y := (nseq N c).

Lemma lag_const (t j : nat) :
  t \in times N p -> nth 0 y (t - j - 1).-1 = c.
Proof.
rewrite mem_iota subSS addSn ltnS => /andP [pt tN].
have pN : (p <= N)%N.
  by apply: ltnW; apply: leq_ltn_trans enough; rewrite mul2n -addnn leq_addr.
move: tN; rewrite subnKC // => tN.
rewrite nth_nseq -subnDA -subn1; case: ifP => // /negP []; apply/ltP.
by move/ltP: pt; move/leP: tN; rewrite -!plusE -!minusE; lia.
Qed.

Lemma target_const (t : nat) : t \in times N p -> nth 0 y t.-1 = c.
Proof.
rewrite mem_iota subSS addSn ltnS => /andP [pt tN].
have pN : (p <= N)%N.
  by apply: ltnW; apply: leq_ltn_trans enough; rewrite mul2n -addnn leq_addr.
move: tN; rewrite subnKC // => tN.
rewrite nth_nseq -subn1; case: ifP => // /negP []; apply/ltP.
by move/ltP: pt; move/leP: tN; rewrite -!minusE; lia.
Qed.

Lemma gram_const (j k : nat) :
  (j < p)%N -> (k < p)%N -> gram y p j k = (c * c) *+ (N - p).
Proof.
move=> jp kp; have := @gramE y p j k jp kp; rewrite size_nseq => ->.
rewrite (eq_big_seq (fun=> c * c)); last first.
  by rewrite /times -/(index_iota p.+1 N.+1) sumr_const_nat subSS.
by move=> t tT; rewrite !lag_const.
Qed.

Lemma moment_const (j : nat) :
  (j < p)%N -> moment y p j = (c * c) *+ (N - p).
Proof.
move=> jp; have := @momentE y p j jp; rewrite size_nseq => ->.
rewrite (eq_big_seq (fun=> c * c)); last first.
  by rewrite /times -/(index_iota p.+1 N.+1) sumr_const_nat subSS.
by move=> t tT; rewrite lag_const // target_const.
Qed.

End Constant.

Lemma det_gram_const (c : rat) (N p : nat) :
  (2 * p < N)%N -> (1 < p)%N -> det_rat p (gram (nseq N c) p) = 0.
Proof.
move=> pN; case: p pN => [|[|p]] // pN _; rewrite det_ratE.
apply: (@determinant_alternate _ _ _ ord0 (lift ord0 ord0)) => // j.
by rewrite !mxE !gram_const.
Qed.

(** C5 as stated fails.  A constant series with order 1 has a non-singular
    design and [fit] succeeds with coefficient 1; with order 2 the design is
    singular, [fit] still returns, and the stored coefficients are not
    finite. *)
Lemma fit_constant_counterexample :
  [/\ ones3 = nseq 3 1,
      fit 1 (init 1) ones3
        = Ok (mkAR 1 (phi (init 1)) (Symbolic SymSigma2) (Some [:: Some 1])),
      fit 1 (init 1) ones3 <> Raise SingularDesignError
    & fit 1 (init 2) (nseq 5 1)
        = Ok (mkAR 2 (phi (init 2)) (Symbolic SymSigma2)
                   (Some [:: None; None]))].
Proof. by split; vm_compute. Qed.

(** C5, amended.  On a constant series of length [N > 2p] with [p >= 1],
    [fit] raises nothing and stores [p] entries.  The design is
    non-singular exactly when [p = 1] and the value is not zero, and then
    the stored coefficient is 1.  In every other case [X^T X] is singular
    and [fit] returns all the same; nothing is stated about the entries it
    stores then. *)
Theorem fit_constant (two_pi c : rat) (N p : nat) :
  two_pi != 0 -> (0 < p)%N -> (2 * p < N)%N ->
  exists phis : seq num,
    [/\ fit two_pi (init p) (nseq N c)
        = Ok (mkAR p (phi (init p)) (Symbolic SymSigma2) (Some phis)),
        size phis = p,
        nonsingular (nseq N c) p = (p == 1%N) && (c != 0)
      & (p == 1%N) && (c != 0) -> phis = [:: Some 1]].
Proof.
move=> tp0 p0 pN; exists (lstsq (nseq N c) p).
have N1 : (N - 1 == 0)%N = false.
  by rewrite subn_eq0 leqNgt (leq_ltn_trans _ pN) // mul2n -addnn ltn_addl.
split.
- by rewrite fit_lstsq ?size_nseq.
- by rewrite /lstsq size_map size_iota.
- case: p p0 pN N1 => [|[|p]] // _ pN N1.
    rewrite /nonsingular /det_rat /= !mulr1 !addr0 gram_const //.
    by rewrite mulrn_eq0 N1 mulf_eq0 orbb.
  by rewrite /nonsingular det_gram_const.
- case/andP => /eqP p1 c0; move: pN N1; rewrite {p0}p1 => pN N1.
  rewrite /lstsq /= !mulr1 !addr0 /repl_col /= gram_const // moment_const //.
  by rewrite mulrn_eq0 N1 mulf_eq0 orbb (negPf c0) divff // mulrn_eq0 N1 mulf_eq0 orbb.
Qed.

Lemma fit_constant_witness :
  exists phis : seq num,
    [/\ fit 1 (init 1) (nseq 3 1)
        = Ok (mkAR 1 (phi (init 1)) (Symbolic SymSigma2) (Some phis)),
        size phis = 1%N,
        nonsingular (nseq 3 1) 1 = (1%N == 1%N) && ((1 : rat) != 0)
      & (1%N == 1%N) && ((1 : rat) != 0) -> phis = [:: Some 1]].
Proof. exact: (@fit_constant 1 1 3 1). Defined.

(** ** The variance *)

(** The variance expression [fit] puts under the logarithm is the formula
    of the specification as a function of the coefficients. *)
Lemma sigma2_expr_hat (y v : seq rat) (p : nat) :
  (2 * p <= size y)%N -> size v = p ->
  subs (y_values y) (subs_phi (nth 0 v) (sigma2_expr (size y) p))
  = Some (sigma2_hat y p v).
Proof.
move=> pN sv; rewrite (@subs_subs_phi (size y)) ?poly_sigma2 //; congr Some.
rewrite evalp_sigma2 /sigma2_hat /inv_dof.
rewrite subzn // -pmulrn -subnDA addnn -mul2n; congr (_ * _).
rewrite big_times /residuals /mulmx_vec /target /design -!map_comp zip_map.
rewrite -map_comp sumq_map; apply: eq_bigr => r _ /=.
rewrite -/(dot _ _) dot_design_row // /res /= [(r + p)%N]addnC.
congr ((_ - _) ^+ 2); apply: eq_big_seq => k; rewrite mem_iota add0n /= => kp.
by rewrite lag_index // [(r + p)%N]addnC mulrC.
Qed.

Lemma fit_fitted (two_pi : rat) (self s' : AnalyticalAR) (y : seq rat) :
  fit two_pi self y = Ok s' -> fitted s'.
Proof.
rewrite /fit; do 2![case: ifP => // _]; case=> <-.
by rewrite /fitted /= size_map size_iota.
Qed.

(** C2 as stated fails: after a successful [fit] the object holds the
    coefficients, and its [sigma2] is still the unbound symbol. *)
Lemma fit_variance_counterexample :
  [/\ fit 1 (init 2) fib5 = Ok fib_model,
      phi_values fib_model = Some [:: Some 1; Some 1]
    & forall x : rat, sigma2 fib_model <> Numeric x].
Proof. by split=> //; vm_compute. Qed.

(** C2, amended.  A successful [fit] on a series of length [N] with order
    [p] has [N > 2p] and stores the [p] coefficients, nothing else: the
    order and the symbols are unchanged and [sigma2] remains the unbound
    symbol.  The variance [(1 / (N - 2p)) * sum_{t=p+1}^{N} e(t)^2] exists
    only as the expression under the logarithm, a function of the
    coefficient symbols that is never evaluated at the solution. *)
Theorem fit_stores_coefficients (two_pi : rat) (y : seq rat) (p : nat)
    (s' : AnalyticalAR) :
  fit two_pi (init p) y = Ok s' ->
  [/\ (2 * p < size y)%N,
      order s' = p /\ phi s' = phi (init p),
      exists2 phis, phi_values s' = Some phis & size phis = p,
      sigma2 s' = Symbolic SymSigma2
    & forall v : seq rat, size v = p ->
        subs (y_values y) (subs_phi (nth 0 v) (sigma2_expr (size y) p))
        = Some (sigma2_hat y p v)].
Proof.
rewrite /fit /=; case: eqP => // /eqP ne; case: ltnP => // le [<-] /=.
have lt : (2 * p < size y)%N by rewrite ltn_neqAle eq_sym ne.
split=> //; first by eexists; [reflexivity | rewrite size_map size_iota].
by move=> v sv; apply: sigma2_expr_hat => //; apply: ltnW.
Qed.

Lemma fit_stores_coefficients_witness :
  [/\ (2 * 2 < size fib5)%N,
      order fib_model = 2%N /\ phi fib_model = phi (init 2),
      exists2 phis, phi_values fib_model = Some phis & size phis = 2%N,
      sigma2 fib_model = Symbolic SymSigma2
    & forall v : seq rat, size v = 2%N ->
        subs (y_values fib5) (subs_phi (nth 0 v) (sigma2_expr (size fib5) 2))
        = Some (sigma2_hat fib5 2 v)].
Proof. exact: (@fit_stores_coefficients 1 fib5 2 fib_model fit_fib5). Defined.

(** ** Further properties of [predict] *)

Lemma rollout_unfitted (self : AnalyticalAR) (ys : seq num) (steps : nat) :
  phi_values self = None -> (0 < order self)%N -> (0 < steps)%N ->
  rollout self ys steps = Raise AttributeError.
Proof.
move=> nofit; case Ep: (order self) => [|p] // _.
by case: steps => // s _; rewrite /= Ep /= nofit.
Qed.

Lemma rollout_order0 (self : AnalyticalAR) (ys : seq num) (steps : nat) :
  order self = 0%N -> rollout self ys steps = Ok (nseq steps (Some 0)).
Proof. by move=> p0; elim: steps ys => [|s IH] ys //=; rewrite p0 /= IH. Qed.

(** X1.  [predict] on a model that has not been fitted raises
    [AttributeError] as soon as one step is requested and the order is
    positive: the attribute [phi_values] is read before the history. *)
Theorem predict_before_fit (self : AnalyticalAR) (h : heap) (y : loc)
    (steps : nat) :
  phi_values self = None -> (0 < order self)%N -> (0 < steps)%N ->
  (y < size h)%N ->
  outcome (predict self y steps h) = Raise AttributeError.
Proof.
move=> nofit p0 s0 yh; have := predict_spec self steps yh.
case: (predict self y steps h) => r h' [_ _ _ ->].
exact: rollout_unfitted.
Qed.

Lemma predict_before_fit_witness :
  outcome (predict (init 2) 0 3 fib_heap) = Raise AttributeError.
Proof. exact: (@predict_before_fit (init 2) fib_heap 0 3). Defined.

(** X2.  With order 0 the sum of every step is empty: [predict] returns
    [steps] zeros, whatever the history, and also on a model that was never
    fitted. *)
Theorem predict_order0 (self : AnalyticalAR) (h : heap) (y : loc)
    (steps : nat) :
  order self = 0%N -> (y < size h)%N ->
  outcome (predict self y steps h) = Ok (nseq steps (Some 0)).
Proof.
move=> p0 yh; have := predict_spec self steps yh.
case: (predict self y steps h) => r h' [_ _ _ ->].
exact: rollout_order0.
Qed.

Lemma predict_order0_witness :
  outcome (predict (init 0) 2 3 fib_heap) = Ok (nseq 3 (Some 0)).
Proof. exact: (@predict_order0 (init 0) fib_heap 2 3). Defined.

Lemma reachable_fitted (self : AnalyticalAR) :
  reachable self -> phi_values self = None \/ fitted self.
Proof.
case=> [p | two_pi s0 s' y _ /fit_fitted fit_ok]; first by left.
by right.
Qed.

(** X3.  On an object built by the constructor and any number of calls of
    [fit], [predict] raises nothing but [AttributeError], when the model was
    never fitted, and [IndexError], when the history is shorter than the
    order; a dictionary lookup never fails. *)
Theorem predict_exceptions (self : AnalyticalAR) (h : heap) (y : loc)
    (steps : nat) (e : exn) :
  reachable self -> (y < size h)%N ->
  outcome (predict self y steps h) = Raise e ->
  (e = AttributeError /\ phi_values self = None)
  \/ (e = IndexError /\ (size (deref h y) < order self)%N).
Proof.
move=> /reachable_fitted inv yh; have := predict_spec self steps yh.
case: (predict self y steps h) => r h' [_ _ _ ->].
case: (posnP (order self)) => [p0 | p0]; first by rewrite rollout_order0.
case: steps => [|s] //.
case: inv => [nofit | fit_ok].
  by rewrite rollout_unfitted // => -[<-]; left.
case: (leqP (order self) (size (deref h y))) => [pN | Np].
  by rewrite rollout_enough.
by rewrite rollout_too_short // => -[<-]; right.
Qed.

Lemma predict_exceptions_witness :
  (IndexError = AttributeError /\ phi_values fib_model = None)
  \/ (IndexError = IndexError
      /\ (size (deref fib_heap 2) < order fib_model)%N).
Proof.
apply: (@predict_exceptions fib_model fib_heap 2 1 IndexError) => //.
exact: (reach_fit (reach_init 2) fit_fib5).
Defined.

Lemma fit_order (two_pi : rat) (self s' : AnalyticalAR) (y : seq rat) :
  fit two_pi self y = Ok s' ->
  order s' = order self /\ (2 * order self < size y)%N.
Proof.
rewrite /fit; case: eqP => // /eqP ne; case: ltnP => // le [<-] /=.
by split=> //; rewrite ltn_neqAle eq_sym ne.
Qed.

(** X4.  The pattern of the example cell: after a successful [fit] on a
    series, [predict] on that same series never raises and returns exactly
    [steps] values, because a series that [fit] accepts is longer than twice
    the order. *)
Theorem fit_then_predict (two_pi : rat) (self s' : AnalyticalAR)
    (y : seq rat) (h : heap) (yl : loc) (steps : nat) :
  fit two_pi self y = Ok s' -> (yl < size h)%N ->
  deref h yl = [seq Some x | x <- y] ->
  exists2 preds : seq num,
    outcome (predict s' yl steps h) = Ok preds & size preds = steps.
Proof.
move=> fit_ok ylh hist; have [Eord lt] := fit_order fit_ok.
have fit_ok' := fit_fitted fit_ok.
have pN : (order s' <= size (deref h yl))%N.
  rewrite hist size_map Eord; apply: ltnW; apply: leq_ltn_trans lt.
  by rewrite mul2n -addnn leq_addr.
exists (forecast (coeffs s') (deref h yl) steps); last exact: size_forecast.
have := predict_spec s' steps ylh.
by case: (predict s' yl steps h) => r h' [_ _ _ ->]; rewrite rollout_enough.
Qed.

Lemma fit_then_predict_witness :
  exists2 preds : seq num,
    outcome (predict fib_model 0 3 fib_heap) = Ok preds & size preds = 3%N.
Proof. exact: (@fit_then_predict 1 (init 2) fib_model fib5 fib_heap 0 3 fit_fib5). Defined.




(** *** Finite values *)

Lemma foldl_nadd_finite (s : seq num) (acc : num) :
  finite acc -> all finite s -> finite (foldl nadd acc s).
Proof.
elim: s acc => [|x s IH] acc //= fa /andP [fx fs]; apply: IH => //.
by case: acc fa => // a _; case: x fx.
Qed.

Lemma forecast_finite (phis ys : seq num) (steps : nat) :
  (size phis <= size ys)%N -> all finite phis -> all finite ys ->
  all finite (forecast phis ys steps).
Proof.
elim: steps ys => [|s IH] ys pN fp fy //=.
have fpred : finite (nsum [seq nmul (nth None phis j) (from_end ys j)
                          | j <- iota 0 (size phis)]).
  apply: foldl_nadd_finite => //; rewrite all_map; apply/allP => j.
  rewrite mem_iota add0n /= => jp.
  have /(all_nthP None) /(_ _ jp) := fp.
  have jN : (size ys - j.+1 < size ys)%N.
    by rewrite ltn_subrL /= (leq_ltn_trans (leq0n j) (leq_trans jp pN)).
  have /(all_nthP None) /(_ _ jN) := fy.
  by rewrite /from_end; case: (nth _ ys _) => //; case: (nth _ phis _).
rewrite fpred IH ?size_rcons ?leqW //.
by rewrite -cats1 all_cat fy /= fpred.
Qed.

(** X6.  After a [fit] on a series with a non-singular design, [predict]
    on a history of finite values returns finite values only. *)
Theorem predict_finite (two_pi : rat) (y : seq rat) (p : nat)
    (s' : AnalyticalAR) (h : heap) (yl : loc) (steps : nat) :
  two_pi != 0 -> nonsingular y p -> fit two_pi (init p) y = Ok s' ->
  (yl < size h)%N -> (p <= size (deref h yl))%N ->
  all finite (deref h yl) ->
  exists2 preds : seq num,
    outcome (predict s' yl steps h) = Ok preds & all finite preds.
Proof.
move=> tp0 ns fit_ok ylh pN fin; have [/= Eord lt] := fit_order fit_ok.
have fit_ok' := fit_fitted fit_ok.
exists (forecast (coeffs s') (deref h yl) steps).
  have := predict_spec s' steps ylh.
  by case: (predict s' yl steps h) => r h' [_ _ _ ->]; rewrite rollout_enough ?Eord.
apply: forecast_finite => //; first by rewrite size_coeffs // Eord.
move: fit_ok; rewrite fit_lstsq // lstsq_nonsingular // => -[<-] /=.
by rewrite all_map; apply/allP.
Qed.

Lemma predict_finite_witness :
  exists2 preds : seq num,
    outcome (predict fib_model 0 3 fib_heap) = Ok preds & all finite preds.
Proof.
by apply: (@predict_finite 1 fib5 2 fib_model fib_heap 0 3 _ _ fit_fib5);
  vm_compute.
Defined.

(** *** Linearity in the history *)

Lemma from_end_scale (c : rat) (ys : seq num) (j : nat) :
  from_end (scale_num c ys) j = nmul (Some c) (from_end ys j).
Proof.
rewrite /from_end /scale_num size_map.
case: (ltnP (size ys - j.+1) (size ys)) => [lt | ge].
  by rewrite (nth_map None).
by rewrite !nth_default ?size_map.
Qed.

Lemma foldl_nadd_scale (c : rat) (a x : nat -> num) (js : seq nat)
    (acc : num) :
  foldl nadd (nmul (Some c) acc)
    [seq nmul (a j) (nmul (Some c) (x j)) | j <- js]
  = nmul (Some c) (foldl nadd acc [seq nmul (a j) (x j) | j <- js]).
Proof.
elim: js acc => [|j js IH] acc //.
rewrite !map_cons ![foldl _ _ (_ :: _)]/= -IH; congr (foldl _ _ _).
case: acc => [u|]; case: (a j) => [v|]; case: (x j) => [w|] //=.
by congr Some; ring.
Qed.

Lemma forecast_scale (c : rat) (phis ys : seq num) (steps : nat) :
  forecast phis (scale_num c ys) steps = scale_num c (forecast phis ys steps).
Proof.
elim: steps ys => [|s IH] ys //=.
set pred := nsum [seq nmul (nth None phis j) (from_end ys j) | j <- _].
have -> : nsum [seq nmul (nth None phis j) (from_end (scale_num c ys) j)
               | j <- iota 0 (size phis)] = nmul (Some c) pred.
  rewrite /pred /nsum -foldl_nadd_scale /= mulr0; congr (foldl _ _ _).
  by apply: eq_map => j; rewrite from_end_scale.
by rewrite -IH /scale_num map_rcons.
Qed.

(** X8.  The forecasts are homogeneous in the history: multiplying every
    value of the history by [c] multiplies every forecast by [c]. *)
Theorem predict_scale (self : AnalyticalAR) (h : heap) (y1 y2 : loc)
    (steps : nat) (c : rat) :
  fitted self -> (y1 < size h)%N -> (y2 < size h)%N ->
  (order self <= size (deref h y1))%N ->
  deref h y2 = scale_num c (deref h y1) ->
  exists2 preds : seq num,
    outcome (predict self y1 steps h) = Ok preds
    & outcome (predict self y2 steps h) = Ok (scale_num c preds).
Proof.
move=> fit_ok y1h y2h pN E2.
have := predict_spec self steps y1h; have := predict_spec self steps y2h.
case: (predict self y2 steps h) => r2 h2 [_ _ _ ->].
case: (predict self y1 steps h) => r1 h1 [_ _ _ ->].
rewrite !rollout_enough ?E2 ?size_map //.
by exists (forecast (coeffs self) (deref h y1) steps); rewrite ?forecast_scale.
Qed.

Lemma predict_scale_witness :
  exists2 preds : seq num,
    outcome (predict fib_model 0 2 scale_heap) = Ok preds
    & outcome (predict fib_model 1 2 scale_heap)
      = Ok (scale_num 2%:R preds).
Proof.
by apply: (@predict_scale fib_model scale_heap 0 1 2 2%:R); vm_compute.
Defined.

(** ** Further properties of [fit] *)

(** X9.  The coefficients do not depend on the constant under the
    logarithm: any two non-zero values in the place of [2 * np.pi] give the
    same result, exception or model. *)
Theorem fit_constant_irrelevant (two_pi two_pi' : rat) (self : AnalyticalAR)
    (y : seq rat) :
  two_pi != 0 -> two_pi' != 0 -> fit two_pi self y = fit two_pi' self y.
Proof.
move=> tp0 tp0'; case: (ltnP (2 * order self) (size y)) => [lt | le].
  by rewrite !fit_lstsq.
rewrite /fit; case: eqP => // /eqP ne.
by rewrite ltn_neqAle ne le.
Qed.

Lemma fit_constant_irrelevant_witness :
  fit 1 (init 2) fib5 = fit 2%:R (init 2) fib5.
Proof. exact: (@fit_constant_irrelevant 1 2%:R (init 2) fib5). Defined.

(** *** The normal equations row by row *)

Lemma moment_sum (y : seq rat) (p j : nat) :
  (j < p)%N ->
  moment y p j
  = \sum_(r <- iota 0 (size y - p)) nth 0 y (r + p - j.+1) * nth 0 y (r + p).
Proof.
by move=> jp; rewrite /moment /dot /target col_design // zip_map -map_comp sumq_map.
Qed.

Lemma gram_sum_iota (y : seq rat) (p j k : nat) :
  (j < p)%N -> (k < p)%N ->
  gram y p j k
  = \sum_(r <- iota 0 (size y - p))
       nth 0 y (r + p - j.+1) * nth 0 y (r + p - k.+1).
Proof.
by move=> jp kp; rewrite /gram /dot !col_design // zip_map -map_comp sumq_map.
Qed.

Lemma normal_row (y phi_hat : seq rat) (p j : nat) :
  size phi_hat = p -> (j < p)%N ->
  nth 0 (multr_vec p (design y p) (mulmx_vec (design y p) phi_hat)) j
  = \sum_(r <- iota 0 (size y - p))
       nth 0 y (r + p - j.+1)
       * \sum_(k <- iota 0 p) nth 0 y (r + p - k.+1) * nth 0 phi_hat k.
Proof.
move=> sz jp; rewrite /multr_vec (nth_map 0%N) ?size_iota // nth_iota // add0n.
rewrite /mulmx_vec col_design // /design -map_comp /dot zip_map -map_comp.
rewrite sumq_map; apply: eq_bigr => r _ /=.
by rewrite -/(dot _ _) dot_design_row.
Qed.

Lemma target_row (y : seq rat) (p j : nat) :
  (j < p)%N ->
  nth 0 (multr_vec p (design y p) (target y p)) j = moment y p j.
Proof.
by move=> jp; rewrite /multr_vec (nth_map 0%N) ?size_iota // nth_iota.
Qed.

(** A solution of the normal equations leaves residuals orthogonal to
    every lag column. *)
Lemma normal_orthogonal (y phi_hat : seq rat) (p j : nat) :
  size phi_hat = p -> normal_equations y p phi_hat -> (j < p)%N ->
  \sum_(r <- iota 0 (size y - p))
     nth 0 y (r + p - j.+1)
     * (nth 0 y (r + p)
        - \sum_(k <- iota 0 p) nth 0 y (r + p - k.+1) * nth 0 phi_hat k)
  = 0.
Proof.
move=> sz ne jp; have := congr1 (fun s => nth 0 s j) ne.
rewrite normal_row // target_row // moment_sum // => E.
rewrite (eq_bigr (fun r => nth 0 y (r + p - j.+1) * nth 0 y (r + p)
    - nth 0 y (r + p - j.+1)
      * \sum_(k <- iota 0 p) nth 0 y (r + p - k.+1) * nth 0 phi_hat k)).
  by move=> r _; rewrite mulrBr.
by rewrite sumrB E subrr.
Qed.

Lemma normal_system (y phi_hat : seq rat) (p j : nat) :
  size phi_hat = p -> normal_equations y p phi_hat -> (j < p)%N ->
  \sum_(k <- iota 0 p) gram y p j k * nth 0 phi_hat k = moment y p j.
Proof.
move=> sz ne jp; have := congr1 (fun s => nth 0 s j) ne.
rewrite normal_row // target_row // => <-.
rewrite (eq_big_seq (fun k => \sum_(r <- iota 0 (size y - p))
     nth 0 y (r + p - j.+1) * nth 0 y (r + p - k.+1) * nth 0 phi_hat k)).
  move=> k; rewrite mem_iota add0n /= => kp.
  by rewrite gram_sum_iota // mulr_suml.
rewrite exchange_big /=; apply: eq_bigr => r _.
by rewrite mulr_sumr; apply: eq_bigr => k _; rewrite mulrA.
Qed.

(** With a non-singular [X^T X] the normal equations have one solution. *)
Lemma normal_equations_unique (y phi_hat : seq rat) (p : nat) :
  nonsingular y p -> size phi_hat = p -> normal_equations y p phi_hat ->
  phi_hat = cramer y p.
Proof.
move=> ns sz ne.
pose Mx := mx_of p (gram y p).
pose col_of (s : seq rat) : 'cV[rat]_p := \col_k nth 0 s k.
have sys (s : seq rat) :
    size s = p -> normal_equations y p s ->
    Mx *m col_of s = \col_j moment y p j.
  move=> ss nes; apply/colP => j; rewrite !mxE -(normal_system ss nes) //.
  rewrite -[p in iota 0 p]subn0 -/(index_iota 0 p) big_mkord.
  by apply: eq_bigr => k _; rewrite !mxE.
have unitM : Mx \in unitmx by rewrite unitmxE unitfE -det_ratE.
have szc : size (cramer y p) = p by rewrite /cramer size_map size_iota.
have E : col_of phi_hat = col_of (cramer y p).
  apply: (can_inj (mulKmx unitM)).
  by rewrite sys // sys //; apply: cramer_normal_equations.
apply: (@eq_from_nth _ 0); first by rewrite sz szc.
move=> k; rewrite sz => kp.
by have := congr1 (fun M : 'cV_p => M (Ordinal kp) 0) E; rewrite !mxE.
Qed.

(** X11.  The coefficients [fit] stores are the only solution of the
    normal equations: whenever a vector of [p] rationals satisfies
    [X^T X phi = X^T t] and the design is non-singular, [fit] stores exactly
    that vector. *)
Theorem fit_unique_solution (two_pi : rat) (y phi0 : seq rat) (p : nat) :
  two_pi != 0 -> (2 * p < size y)%N -> nonsingular y p ->
  size phi0 = p -> normal_equations y p phi0 ->
  fit two_pi (init p) y
  = Ok (mkAR p (phi (init p)) (Symbolic SymSigma2)
          (Some [seq Some x | x <- phi0])).
Proof.
move=> tp0 lt ns sz ne; rewrite fit_lstsq // lstsq_nonsingular //=.
by rewrite (normal_equations_unique ns sz ne).
Qed.

Lemma fit_unique_solution_witness :
  fit 1 (init 2) fib5
  = Ok (mkAR 2 (phi (init 2)) (Symbolic SymSigma2)
          (Some [seq Some x | x <- [:: 1; 1]])).
Proof. by apply: (@fit_unique_solution 1 fib5 [:: 1; 1] 2); vm_compute. Defined.

(** X12.  Exact recovery: when the series obeys a recurrence of order [p]
    with coefficients [a] without error, i.e. [X a = t], and the design is
    non-singular, [fit] stores [a]. *)
Theorem fit_exact_recovery (two_pi : rat) (y a : seq rat) (p : nat) :
  two_pi != 0 -> (2 * p < size y)%N -> nonsingular y p ->
  size a = p -> mulmx_vec (design y p) a = target y p ->
  fit two_pi (init p) y
  = Ok (mkAR p (phi (init p)) (Symbolic SymSigma2)
          (Some [seq Some x | x <- a])).
Proof.
move=> tp0 lt ns sz exact; rewrite fit_lstsq // lstsq_nonsingular //=.
by rewrite -(@normal_equations_unique y a p) // /normal_equations exact.
Qed.

Lemma fit_exact_recovery_witness :
  fit 1 (init 2) fib5
  = Ok (mkAR 2 (phi (init 2)) (Symbolic SymSigma2)
          (Some [seq Some x | x <- [:: 1; 1]])).
Proof. by apply: (@fit_exact_recovery 1 fib5 [:: 1; 1] 2); vm_compute. Defined.

(** *** Scaling the series *)

Lemma nth_scale (c : rat) (y : seq rat) (i : nat) :
  nth 0 [seq c * x | x <- y] i = c * nth 0 y i.
Proof.
case: (ltnP i (size y)) => [lt | ge]; first by rewrite (nth_map 0).
by rewrite !nth_default ?size_map // mulr0.
Qed.

Lemma gram_scale (c : rat) (y : seq rat) (p j k : nat) :
  (j < p)%N -> (k < p)%N ->
  gram [seq c * x | x <- y] p j k = c ^+ 2 * gram y p j k.
Proof.
move=> jp kp; rewrite !gram_sum_iota // size_map mulr_sumr.
by apply: eq_bigr => r _; rewrite !nth_scale; ring.
Qed.

Lemma moment_scale (c : rat) (y : seq rat) (p j : nat) :
  (j < p)%N -> moment [seq c * x | x <- y] p j = c ^+ 2 * moment y p j.
Proof.
move=> jp; rewrite !moment_sum // size_map mulr_sumr.
by apply: eq_bigr => r _; rewrite !nth_scale; ring.
Qed.

Lemma lstsq_scale (c : rat) (y : seq rat) (p : nat) :
  c != 0 -> lstsq [seq c * x | x <- y] p = lstsq y p.
Proof.
move=> c0; rewrite /lstsq; apply/eq_in_map => k; rewrite mem_iota add0n /= => kp.
have -> : det_rat p (gram [seq c * x | x <- y] p)
          = (c ^+ 2) ^+ p * det_rat p (gram y p).
  by rewrite -det_rat_scale; apply: det_rat_ext => i j ip jp; apply: gram_scale.
have -> : det_rat p (repl_col (gram [seq c * x | x <- y] p) k
                       (moment [seq c * x | x <- y] p))
          = (c ^+ 2) ^+ p * det_rat p (repl_col (gram y p) k (moment y p)).
  rewrite -det_rat_scale; apply: det_rat_ext => i j ip jp.
  by rewrite /repl_col; case: ifP => _; rewrite ?moment_scale ?gram_scale.
have cp : (c ^+ 2) ^+ p != 0 by rewrite !expf_neq0.
rewrite mulf_eq0 (negPf cp) /=; case: eqP => // _.
by rewrite invfM mulrACA divff // mul1r.
Qed.

Lemma nonsingular_scale (c : rat) (y : seq rat) (p : nat) :
  c != 0 -> nonsingular [seq c * x | x <- y] p = nonsingular y p.
Proof.
move=> c0; rewrite /nonsingular.
have -> : det_rat p (gram [seq c * x | x <- y] p)
          = (c ^+ 2) ^+ p * det_rat p (gram y p).
  by rewrite -det_rat_scale; apply: det_rat_ext => i j ip jp; apply: gram_scale.
by rewrite mulf_eq0 negb_or !expf_neq0.
Qed.

(** X13.  The coefficients are invariant under a change of unit: when the
    series has length [N > 2p] and a non-singular design, the series
    multiplied by a non-zero constant has a non-singular design too and
    [fit] stores the same coefficients for both. *)
Theorem fit_scale_invariant (two_pi c : rat) (self : AnalyticalAR)
    (y : seq rat) :
  two_pi != 0 -> c != 0 -> (2 * order self < size y)%N ->
  nonsingular y (order self) ->
  nonsingular [seq c * x | x <- y] (order self)
  /\ fit two_pi self [seq c * x | x <- y] = fit two_pi self y.
Proof.
move=> tp0 c0 lt ns; split; first by rewrite nonsingular_scale.
by rewrite !fit_lstsq ?size_map // lstsq_scale.
Qed.

Lemma fit_scale_invariant_witness :
  nonsingular [seq 2%:R * x | x <- fib5] (order (init 2))
  /\ fit 1 (init 2) [seq 2%:R * x | x <- fib5] = fit 1 (init 2) fib5.
Proof. by apply: (@fit_scale_invariant 1 2%:R (init 2) fib5); vm_compute. Defined.

(** *** The stored coefficients maximise the likelihood *)

Lemma rss_sum (y v : seq rat) (p : nat) :
  size v = p ->
  sumq [seq e ^+ 2 | e <- residuals y p v]
  = \sum_(r <- iota 0 (size y - p))
       (nth 0 y (r + p)
        - \sum_(k <- iota 0 p) nth 0 y (r + p - k.+1) * nth 0 v k) ^+ 2.
Proof.
move=> sz; rewrite /residuals /mulmx_vec /target /design -!map_comp zip_map.
rewrite -map_comp sumq_map; apply: eq_bigr => r _ /=.
by rewrite -/(dot _ _) dot_design_row.
Qed.

(** Pythagoras for the residual sum of squares around a solution of the
    normal equations. *)
Lemma rss_decomposition (y phi_hat v : seq rat) (p : nat) :
  size phi_hat = p -> size v = p -> normal_equations y p phi_hat ->
  sumq [seq e ^+ 2 | e <- residuals y p v]
  = sumq [seq e ^+ 2 | e <- residuals y p phi_hat]
    + \sum_(r <- iota 0 (size y - p))
         (\sum_(k <- iota 0 p)
             nth 0 y (r + p - k.+1) * (nth 0 v k - nth 0 phi_hat k)) ^+ 2.
Proof.
move=> sp sv ne; rewrite !rss_sum //.
pose X r k := nth 0 y (r + p - k.+1).
pose E r := nth 0 y (r + p) - \sum_(k <- iota 0 p) X r k * nth 0 phi_hat k.
pose D r := \sum_(k <- iota 0 p) X r k * (nth 0 v k - nth 0 phi_hat k).
have ED0 : \sum_(r <- iota 0 (size y - p)) E r * D r = 0.
  rewrite (eq_bigr (fun r => \sum_(k <- iota 0 p)
             (nth 0 v k - nth 0 phi_hat k) * (X r k * E r))).
    by move=> r _; rewrite mulr_sumr; apply: eq_bigr => k _; ring.
  rewrite exchange_big /= big1_seq // => k /andP [_].
  rewrite mem_iota add0n /= => kp.
  by rewrite -mulr_sumr (normal_orthogonal sp ne kp) mulr0.
have pt r : (nth 0 y (r + p) - \sum_(k <- iota 0 p) X r k * nth 0 v k) ^+ 2
            = E r ^+ 2 + D r ^+ 2 + (- 2%:R) * (E r * D r).
  have -> : D r = \sum_(k <- iota 0 p) X r k * nth 0 v k
                  - \sum_(k <- iota 0 p) X r k * nth 0 phi_hat k.
    by rewrite -sumrB; apply: eq_bigr => k _; rewrite mulrBr.
  by rewrite /E; ring.
by rewrite (eq_bigr _ (fun r _ => pt r)) !big_split /= -mulr_sumr ED0 mulr0 addr0.
Qed.

(** X14.  The stationary point is the maximum of the likelihood: at the
    coefficients [fit] stores, the variance expression under the logarithm
    is not larger than at any other coefficient vector, so that
    [-(N-p)/2 * log(2 pi sigma2)] is not smaller. *)
Theorem fit_minimises_variance (two_pi : rat) (y v : seq rat) (p : nat) :
  two_pi != 0 -> (2 * p < size y)%N -> nonsingular y p -> size v = p ->
  exists phi_hat : seq rat,
    [/\ fit two_pi (init p) y
        = Ok (mkAR p (phi (init p)) (Symbolic SymSigma2)
                   (Some [seq Some x | x <- phi_hat])),
        subs (y_values y) (subs_phi (nth 0 phi_hat) (sigma2_expr (size y) p))
        = Some (sigma2_hat y p phi_hat),
        subs (y_values y) (subs_phi (nth 0 v) (sigma2_expr (size y) p))
        = Some (sigma2_hat y p v)
      & sigma2_hat y p phi_hat <= sigma2_hat y p v].
Proof.
move=> tp0 lt ns sv; exists (cramer y p).
have sc : size (cramer y p) = p by rewrite /cramer size_map size_iota.
split.
- by rewrite fit_lstsq // lstsq_nonsingular.
- by apply: sigma2_expr_hat => //; apply: ltnW.
- by apply: sigma2_expr_hat => //; apply: ltnW.
- rewrite /sigma2_hat ler_wpM2l ?invr_ge0 ?ler0n //.
  rewrite (rss_decomposition sc sv (cramer_normal_equations ns)) lerDl.
  by apply: sumr_ge0 => r _; apply: sqr_ge0.
Qed.

Lemma fit_minimises_variance_witness :
  exists phi_hat : seq rat,
    [/\ fit 1 (init 2) fib5
        = Ok (mkAR 2 (phi (init 2)) (Symbolic SymSigma2)
                   (Some [seq Some x | x <- phi_hat])),
        subs (y_values fib5)
          (subs_phi (nth 0 phi_hat) (sigma2_expr (size fib5) 2))
        = Some (sigma2_hat fib5 2 phi_hat),
        subs (y_values fib5)
          (subs_phi (nth 0 [:: 2%:R; 0]) (sigma2_expr (size fib5) 2))
        = Some (sigma2_hat fib5 2 [:: 2%:R; 0])
      & sigma2_hat fib5 2 phi_hat <= sigma2_hat fib5 2 [:: 2%:R; 0]].
Proof.
by apply: (@fit_minimises_variance 1 fib5 [:: 2%:R; 0] 2); vm_compute.
Defined.
